(** * TCL list encoding of phil-lib ([src/tcl.ts]): model and properties

    The file embeds [tclQuote], [encodeTclListElement] and [tclList] together
    with the JavaScript string primitives they rely on, and states the
    properties of the encoder over that embedding.

    A JavaScript string is a sequence of UTF-16 code units.  [Array.from(s)]
    and [for (const c of s)] both walk the string by code points: a high
    surrogate immediately followed by a low surrogate forms one two-unit
    element, every other unit (lone surrogates included) is an element of its
    own. *)

From Stdlib Require Import String Ascii.
From Stdlib Require Import List NArith ZArith Bool Arith Lia.
From Stdlib Require Import Permutation Factorial.
Import ListNotations.

(** ** JavaScript strings *)

Module JS.

Definition codeUnit := N.
Definition jsstring := list codeUnit.

(** An ASCII literal as a JavaScript string. *)
Definition js (s : string) : jsstring :=
  List.map N_of_ascii (list_ascii_of_string s).

Definition SPACE : codeUnit := 32%N.
Definition DQUOTE : codeUnit := 34%N.
Definition BACKSLASH : codeUnit := 92%N.
Definition LBRACE : codeUnit := 123%N.
Definition RBRACE : codeUnit := 125%N.

(** [a === b] on strings. *)
Fixpoint strictEq (a b : jsstring) : bool :=
  match a, b with
  | [], [] => true
  | x :: a', y :: b' => N.eqb x y && strictEq a' b'
  | _, _ => false
  end.

Definition isHighSurrogate (u : codeUnit) : bool :=
  (N.leb 0xD800 u && N.leb u 0xDBFF)%N.

Definition isLowSurrogate (u : codeUnit) : bool :=
  (N.leb 0xDC00 u && N.leb u 0xDFFF)%N.

(** [Array.from(s)], and the sequence [for (const c of s)] visits. *)
Fixpoint Array_from (s : jsstring) : list jsstring :=
  match s with
  | [] => []
  | u :: rest =>
      match rest with
      | v :: rest' =>
          if isHighSurrogate u && isLowSurrogate v
          then [u; v] :: Array_from rest'
          else [u] :: Array_from rest
      | [] => [[u]]
      end
  end.

(** [s.charCodeAt(0)]; [None] stands for NaN (empty string). *)
Definition charCodeAt0 (s : jsstring) : option N := hd_error s.

(** [s.codePointAt(0)]; [None] stands for [undefined]. *)
Definition codePointAt0 (s : jsstring) : option N :=
  match s with
  | [] => None
  | u :: rest =>
      match rest with
      | v :: _ =>
          if isHighSurrogate u && isLowSurrogate v
          then Some ((u - 0xD800) * 0x400 + (v - 0xDC00) + 0x10000)%N
          else Some u
      | [] => Some u
      end
  end.

Definition hexDigit (d : N) : codeUnit :=
  (if d <? 10 then 48 + d else 87 + d)%N.

Fixpoint toHex (fuel : nat) (n : N) (acc : jsstring) : jsstring :=
  let acc' := hexDigit (n mod 16) :: acc in
  match fuel with
  | O => acc'
  | S fuel' => if (n / 16 =? 0)%N then acc' else toHex fuel' (n / 16) acc'
  end.

(** [n.toString(16)] for a non-negative integer [n]. *)
Definition Number_toString16 (n : N) : jsstring :=
  toHex (N.to_nat (N.log2 n)) n [].

(** [s.padStart(targetLength, pad)] for a one-unit [pad]. *)
Definition padStart (targetLength : nat) (pad : codeUnit) (s : jsstring)
  : jsstring :=
  repeat pad (targetLength - length s) ++ s.

(** [String.fromCharCode(...codes)]: every code is reduced to 16 bits. *)
Definition String_fromCharCode (codes : list N) : jsstring :=
  List.map (fun c => (c mod 65536)%N) codes.

(** [parts.join(sep)] on an array of strings. *)
Fixpoint join (sep : jsstring) (parts : list jsstring) : jsstring :=
  match parts with
  | [] => []
  | [p] => p
  | p :: rest => p ++ sep ++ join sep rest
  end.

End JS.
Import JS.

(** ** Completion of a call: a value, or a thrown exception *)

Inductive exn : Type :=
| TypeError            (* a property read on [undefined] *)
| IncompatibleVersion  (* [new Error("Incompatible version of JavaScript.")] *)
| FuelExhausted.       (* the model's loop bound was too small *)

Inductive completion (A : Type) : Type :=
| Ok (a : A)
| Throw (e : exn).
Arguments Ok {A} a.
Arguments Throw {A} e.

Definition bind {A B} (r : completion A) (k : A -> completion B)
    : completion B :=
  match r with
  | Ok a => k a
  | Throw e => Throw e
  end.

Notation "x <- r ;; k" := (bind r (fun x => k))
  (at level 61, r at next level, right associativity).

Fixpoint mapM {A B} (f : A -> completion B) (l : list A)
    : completion (list B) :=
  match l with
  | [] => Ok []
  | a :: rest =>
      b <- f a ;;
      bs <- mapM f rest ;;
      Ok (b :: bs)
  end.

(** ** [src/misc.ts]: [initializedArray] *)

Fixpoint initializedArray_loop {T} (remaining i : nat) (callback : nat -> T)
    (result : list T) : list T :=
  match remaining with
  | O => result
  | S remaining' =>
      initializedArray_loop remaining' (S i) callback (result ++ [callback i])
  end.

Definition initializedArray {T} (count : nat) (callback : nat -> T) : list T :=
  initializedArray_loop count 0 callback [].

(** ** [src/tcl.ts]: the element quoter *)

Definition isUnprintableAscii (char : jsstring) : bool :=
  match charCodeAt0 char with
  | None => false
  | Some charCode => ((charCode <? 32) || (charCode =? 127))%N
  end.

(** The start-up check of the module: both ways of walking a string must keep
    the literal of the check, U+1F600 (two code units), in one piece. *)
Definition grinningFace : jsstring := [0xD83D; 0xDE00]%N.

Definition moduleInit : completion unit :=
  match Array_from grinningFace with
  | first :: _ =>
      if negb (strictEq first grinningFace) then Throw IncompatibleVersion
      else
        if forallb (fun codePoint => strictEq codePoint grinningFace)
                   (Array_from grinningFace)
        then Ok tt else Throw IncompatibleVersion
  | [] => Throw IncompatibleVersion
  end.

(** The three locals of the classification loop. *)
Record scanState : Type := mkScan {
  requireSlashQuote : bool;
  requireBraceQuote : bool;
  braceCount : nat
}.

Definition scanStart : scanState := mkScan false false 0.

Definition setSlash (st : scanState) : scanState :=
  mkScan true (requireBraceQuote st) (braceCount st).

Definition setBrace (st : scanState) : scanState :=
  mkScan (requireSlashQuote st) true (braceCount st).

(** One pass through the body of [for (let i = 0; i < inputLength; i++)], up to
    the test of [requireSlashQuote]: the new locals and the value [i] has when
    the body ends.  Reading [.length] of [asArray[i]] throws when the index is
    out of range. *)
Definition loopBody (asArray : list jsstring) (inputLength i : nat)
    (st : scanState) : completion (scanState * nat) :=
  match nth_error asArray i with
  | None => Throw TypeError
  | Some character =>
      if 1 <? length character then Ok (st, i)
      else if isUnprintableAscii character then Ok (setSlash st, i)
      else if strictEq character [SPACE] || strictEq character [DQUOTE]
      then Ok (setBrace st, i)
      else if strictEq character [BACKSLASH] then
        if i + 1 =? inputLength then Ok (setSlash st, i)
        else Ok (setBrace st, i + 1)
      else if strictEq character [LBRACE]
      then Ok (mkScan (requireSlashQuote st) true (braceCount st + 1), i)
      else if strictEq character [RBRACE] then
        match braceCount st with
        | S n => Ok (mkScan (requireSlashQuote st) true n, i)
        | O => Ok (setSlash (setBrace st), i)
        end
      else Ok (st, i)
  end.

(** The loop itself; [fuel] bounds the number of passes. *)
Fixpoint scanLoop (fuel : nat) (asArray : list jsstring) (inputLength i : nat)
    (st : scanState) : completion scanState :=
  match fuel with
  | O => if i <? inputLength then Throw FuelExhausted else Ok st
  | S fuel' =>
      if i <? inputLength then
        r <- loopBody asArray inputLength i st ;;
        let '(st', i') := r in
        if requireSlashQuote st' then Ok st'
        else scanLoop fuel' asArray inputLength (S i') st'
      else Ok st
  end.

(** What the second loop appends for one character. *)
Definition slashQuoteCharacter (character : jsstring) : jsstring :=
  if strictEq character [8%N] then [BACKSLASH] ++ js "b"
  else if strictEq character [12%N] then [BACKSLASH] ++ js "f"
  else if strictEq character [10%N] then [BACKSLASH] ++ js "n"
  else if strictEq character [13%N] then [BACKSLASH] ++ js "r"
  else if strictEq character [9%N] then [BACKSLASH] ++ js "t"
  else if strictEq character [11%N] then [BACKSLASH] ++ js "v"
  else if strictEq character [SPACE] || strictEq character [DQUOTE]
          || strictEq character [BACKSLASH] || strictEq character [LBRACE]
          || strictEq character [RBRACE]
  then [BACKSLASH] ++ character
  else if isUnprintableAscii character then
    [BACKSLASH] ++ js "x"
      ++ match codePointAt0 character with
         | Some cp => padStart 2 48%N (Number_toString16 cp)
         | None => js "undefined"
         end
  else character.

(** [let result = ""; for (const character of s) { ... }]. *)
Definition slashQuote (s : jsstring) : jsstring :=
  fold_left (fun result character => result ++ slashQuoteCharacter character)
            (Array_from s) [].

Definition tclQuote (s : jsstring) : completion jsstring :=
  if strictEq s [] then Ok (js "{}")
  else
    let asArray := Array_from s in
    let inputLength := length asArray in
    st <- scanLoop inputLength asArray inputLength 0 scanStart ;;
    let requireSlashQuote' :=
      if negb (braceCount st =? 0) then true else requireSlashQuote st in
    if requireSlashQuote' then Ok (slashQuote s)
    else if requireBraceQuote st then Ok ([LBRACE] ++ s ++ [RBRACE])
    else Ok s.

(** ** [src/tcl.ts]: the list encoder *)

Section Encoder.

(** JavaScript numbers and their default conversion [n.toString()]. *)
Variable number : Type.
Variable Number_toString : number -> jsstring.

#[warning="-register-all"]
Inductive TclListable : Type :=
| TString (s : jsstring)
| TNumber (n : number)
| TBoolean (b : bool)
| TIterable (items : list TclListable).

(** [encodeTclListElement] and [tclList] call each other; the loop of
    [tclList] is the local [forOf], with [result] as its accumulator. *)
Fixpoint encodeTclListElement (toEncode : TclListable) : completion jsstring :=
  match toEncode with
  | TString s => tclQuote s
  | TNumber n => Ok (Number_toString n)
  | TBoolean true => Ok (js "1")
  | TBoolean false => Ok (js "0")
  | TIterable list0 =>
      let fix forOf (items : list TclListable) (result : jsstring)
          : completion jsstring :=
        match items with
        | [] => Ok result
        | item :: rest =>
            let result1 :=
              if negb (strictEq result []) then result ++ [SPACE]
              else result in
            e <- encodeTclListElement item ;;
            forOf rest (result1 ++ e)
        end in
      encoded <- forOf list0 [] ;;
      tclQuote encoded
  end.

Fixpoint tclList_forOf (items : list TclListable) (result : jsstring)
    : completion jsstring :=
  match items with
  | [] => Ok result
  | item :: rest =>
      let result1 :=
        if negb (strictEq result []) then result ++ [SPACE] else result in
      e <- encodeTclListElement item ;;
      tclList_forOf rest (result1 ++ e)
  end.

Definition tclList (list0 : list TclListable) : completion jsstring :=
  tclList_forOf list0 [].

End Encoder.

Arguments TString {number} s.
Arguments TNumber {number} n.
Arguments TBoolean {number} b.
Arguments TIterable {number} items.
Arguments encodeTclListElement {number} Number_toString toEncode.
Arguments tclList_forOf {number} Number_toString items result.
Arguments tclList {number} Number_toString list0.

(** ** Character classes used by the statements *)

Definition isControl (u : codeUnit) : bool := ((u <? 32) || (u =? 127))%N.

Definition isBrace (u : codeUnit) : bool :=
  ((u =? LBRACE) || (u =? RBRACE))%N.

(** Plain content: no control character, space, double quote, backslash or
    brace. *)
Definition isPlain (u : codeUnit) : bool :=
  negb (isControl u || (u =? SPACE) || (u =? DQUOTE) || (u =? BACKSLASH)
        || isBrace u)%N.

Definition isSurrogate (u : codeUnit) : bool :=
  isHighSurrogate u || isLowSurrogate u.

(** Units that make the scan ask for braces, and units that can neither stop
    the scan nor protect their successor. *)
Definition needsBraceUnit (u : codeUnit) : bool :=
  ((u =? SPACE) || (u =? DQUOTE))%N || isBrace u.

Definition tame (u : codeUnit) : bool :=
  negb (isControl u) && negb (u =? BACKSLASH)%N.

(** Neither a control character nor a space, a double quote or a
    backslash; braces are allowed. *)
Definition plainOrBrace (u : codeUnit) : bool :=
  negb (isControl u || (u =? SPACE) || (u =? DQUOTE) || (u =? BACKSLASH))%N.

(** Neither a control character nor a double quote, a backslash or a brace;
    spaces are allowed. *)
Definition plainOrSpace (u : codeUnit) : bool :=
  negb (isControl u || (u =? DQUOTE) || (u =? BACKSLASH) || isBrace u)%N.

(** Balanced braces: walking left to right, no close brace arrives at depth
    zero and the depth is back to zero at the end. *)
Fixpoint balancedFrom (depth : nat) (s : jsstring) : bool :=
  match s with
  | [] => depth =? 0
  | u :: rest =>
      if (u =? LBRACE)%N then balancedFrom (S depth) rest
      else if (u =? RBRACE)%N then
        match depth with
        | O => false
        | S depth' => balancedFrom depth' rest
        end
      else balancedFrom depth rest
  end.

Definition balancedBraces (s : jsstring) : bool := balancedFrom 0 s.

(** The brace walk over code points in which a backslash protects the code
    point that follows it. *)
Inductive braceOutcome : Type :=
| CloseAtZero
| EndDepth (depth : nat).

Fixpoint braceWalk (depth : nat) (chars : list jsstring) : braceOutcome :=
  match chars with
  | [] => EndDepth depth
  | c :: rest =>
      if strictEq c [BACKSLASH] then
        match rest with
        | [] => EndDepth depth
        | _ :: rest' => braceWalk depth rest'
        end
      else if strictEq c [LBRACE] then braceWalk (S depth) rest
      else if strictEq c [RBRACE] then
        match depth with
        | O => CloseAtZero
        | S depth' => braceWalk depth' rest
        end
      else braceWalk depth rest
  end.

Definition unbalancedBraces (s : jsstring) : bool :=
  match braceWalk 0 (Array_from s) with
  | EndDepth O => false
  | _ => true
  end.

(** Length of the longest prefix of [l] whose elements satisfy [p]. *)
Fixpoint countLeading {A} (p : A -> bool) (l : list A) : nat :=
  match l with
  | x :: rest => if p x then S (countLeading p rest) else 0
  | [] => 0
  end.

Definition isBackslashCharacter (c : jsstring) : bool :=
  strictEq c [BACKSLASH].

(** Number of backslash code points at the very end of the string. *)
Definition trailingRun (chars : list jsstring) : nat :=
  countLeading isBackslashCharacter (rev chars).

Definition trailingBackslashes (s : jsstring) : nat :=
  trailingRun (Array_from s).

(** ** The classification loop as a recursion over the remaining characters *)

Definition classify (character : jsstring) (isLast : bool) (st : scanState)
    : scanState * bool :=
  if 1 <? length character then (st, false)
  else if isUnprintableAscii character then (setSlash st, false)
  else if strictEq character [SPACE] || strictEq character [DQUOTE]
  then (setBrace st, false)
  else if strictEq character [BACKSLASH] then
    if isLast then (setSlash st, false) else (setBrace st, true)
  else if strictEq character [LBRACE]
  then (mkScan (requireSlashQuote st) true (braceCount st + 1), false)
  else if strictEq character [RBRACE] then
    match braceCount st with
    | S n => (mkScan (requireSlashQuote st) true n, false)
    | O => (setSlash (setBrace st), false)
    end
  else (st, false).

Fixpoint scanFrom (chars : list jsstring) (st : scanState) : scanState :=
  match chars with
  | [] => st
  | character :: rest =>
      let '(st', skip) :=
        classify character (match rest with [] => true | _ => false end) st in
      if requireSlashQuote st' then st'
      else if skip then
        match rest with
        | [] => st'
        | _ :: rest' => scanFrom rest' st'
        end
      else scanFrom rest st'
  end.

(** [if (braceCount) requireSlashQuote = true], then the value tested. *)
Definition finalSlash (st : scanState) : bool :=
  if negb (braceCount st =? 0) then true else requireSlashQuote st.

(** The value [tclQuote] returns, as a function of the string. *)
Definition quoteElement (s : jsstring) : jsstring :=
  if strictEq s [] then js "{}"
  else
    let st := scanFrom (Array_from s) scanStart in
    if finalSlash st then slashQuote s
    else if requireBraceQuote st then [LBRACE] ++ s ++ [RBRACE]
    else s.

(** A visibly quoted form of [encoded]: the string inside one pair of braces,
    or its backslash-escaped form when escaping changes it. *)
Definition visiblyQuoted (encoded element : jsstring) : bool :=
  strictEq element ([LBRACE] ++ encoded ++ [RBRACE])
  || (strictEq element (slashQuote encoded)
      && negb (strictEq element encoded)).

(** ** The list encoding in the words of the specification *)

Section ElementStrings.

Variable number : Type.
Variable Number_toString : number -> jsstring.

(** The element string of one value: text through the element quoter, a
    number through its default conversion, true as 1 and false as 0, a nested
    sequence encoded on its own and then passed through the element quoter. *)
Fixpoint elementString_spec (v : TclListable number) : jsstring :=
  match v with
  | TString s => quoteElement s
  | TNumber n => Number_toString n
  | TBoolean true => js "1"
  | TBoolean false => js "0"
  | TIterable items =>
      quoteElement (join [SPACE] (List.map elementString_spec items))
  end.

(** The element strings joined with single spaces. *)
Definition encodeList_spec (values : list (TclListable number)) : jsstring :=
  join [SPACE] (List.map elementString_spec values).

End ElementStrings.

Arguments elementString_spec {number} Number_toString v.
Arguments encodeList_spec {number} Number_toString values.

(** ** Integers as an instance of the numbers *)

Fixpoint decimalDigits (fuel : nat) (n : N) (acc : jsstring) : jsstring :=
  let acc' := (48 + n mod 10)%N :: acc in
  match fuel with
  | O => acc'
  | S fuel' =>
      if (n / 10 =? 0)%N then acc' else decimalDigits fuel' (n / 10) acc'
  end.

(** [z.toString()] for an integer-valued number below 10^21 in size. *)
Definition integer_toString (z : Z) : jsstring :=
  match z with
  | Z0 => js "0"
  | Zpos p => decimalDigits (N.to_nat (N.log2 (Npos p))) (Npos p) []
  | Zneg p => js "-" ++ decimalDigits (N.to_nat (N.log2 (Npos p))) (Npos p) []
  end.

(** ** The first case of [tclUnitTest]: all ASCII characters *)

Definition allAsciiSource : jsstring :=
  String_fromCharCode (initializedArray 128 N.of_nat).

Definition allAsciiExpected : jsstring :=
  js "\x00\x01\x02\x03\x04\x05\x06\x07\b\t\n\v\f\r\x0e\x0f"
  ++ js "\x10\x11\x12\x13\x14\x15\x16\x17\x18\x19\x1a\x1b\x1c\x1d\x1e\x1f"
  ++ js "\ !" ++ [BACKSLASH; DQUOTE]
  ++ js "#$%&'()*+,-./0123456789:;<=>?@ABCDEFGHIJKLMNOPQRSTUVWXYZ["
  ++ [BACKSLASH; BACKSLASH]
  ++ js "]^_`abcdefghijklmnopqrstuvwxyz\{|\}~\x7f".

(** The escape table in the words of the specification, for one ASCII code
    point. *)
Definition twoDigitHex (u : codeUnit) : jsstring :=
  [hexDigit (u / 16); hexDigit (u mod 16)]%N.

Definition referenceEscape (u : codeUnit) : jsstring :=
  if isControl u then
    if (u =? 8)%N then [BACKSLASH] ++ js "b"
    else if (u =? 9)%N then [BACKSLASH] ++ js "t"
    else if (u =? 10)%N then [BACKSLASH] ++ js "n"
    else if (u =? 11)%N then [BACKSLASH] ++ js "v"
    else if (u =? 12)%N then [BACKSLASH] ++ js "f"
    else if (u =? 13)%N then [BACKSLASH] ++ js "r"
    else [BACKSLASH] ++ js "x" ++ twoDigitHex u
  else if ((u =? SPACE) || (u =? DQUOTE) || (u =? BACKSLASH))%N || isBrace u
  then [BACKSLASH; u]
  else [u].

Definition asciiCodePoints : list codeUnit := List.map N.of_nat (seq 0 128).

(** ** Further cases of [tclUnitTest]

    Each case is a source value and the string [tclList([source])] must
    return. *)

Definition testCases : list (TclListable Z * jsstring) :=
  [ (TString [], js "{}");
    (TString (js "simple_value"), js "simple_value");
    (TString (js "a b c"), js "{a b c}");
    (TString (js "{a b} {{c d} {e f}} {} {g h}"),
     js "{{a b} {{c d} {e f}} {} {g h}}");
    (TString (js "{a b} \\ \} \{ {c d}"), js "{{a b} \\ \} \{ {c d}}");
    (TString (js "a bc" ++ [BACKSLASH]),
     js "a\ bc" ++ [BACKSLASH; BACKSLASH]);
    (TString (js "{{{}}"), js "\{\{\{\}\}");
    (TString (js "{{}}}"), js "\{\{\}\}\}");
    (TString (js "{}}{{}"), js "\{\}\}\{\{\}");
    (TString (js "a" ++ [DQUOTE] ++ js "b{c"),
     js "a" ++ [BACKSLASH; DQUOTE] ++ js "b\{c");
    (TString ([0xA1%N] ++ js "Hola! " ++ [0xBF%N] ++ js "Qu" ++ [0xE8%N]
              ++ js " pasa?"),
     js "{" ++ [0xA1%N] ++ js "Hola! " ++ [0xBF%N] ++ js "Qu" ++ [0xE8%N]
     ++ js " pasa?}");
    (TString (js "Don" ++ [0x2019%N] ++ js "t stop here {"),
     js "Don" ++ [0x2019%N] ++ js "t\ stop\ here\ \{");
    (TIterable
       [TIterable [];
        TIterable [TNumber 1%Z; TNumber 2%Z; TString (js "three");
                   TIterable [TBoolean true; TBoolean false]]],
     js "{{} {1 2 three {1 0}}}") ].

Definition testPasses (testCase : TclListable Z * jsstring) : Prop :=
  tclList integer_toString [fst testCase] = Ok (snd testCase).

(** ** Further notions used by the statements *)

(** The characters of a string when every code unit is taken on its own. *)
Definition singletons (s : jsstring) : list jsstring :=
  List.map (fun u => [u]) s.

(** A string in which a backslash is always followed by one more unit and
    every unit that does not follow such a backslash is plain. *)
Fixpoint bareSpecialFree (r : jsstring) : bool :=
  match r with
  | [] => true
  | u :: rest =>
      if (u =? BACKSLASH)%N then
        match rest with
        | [] => false
        | _ :: rest' => bareSpecialFree rest'
        end
      else isPlain u && bareSpecialFree rest
  end.

(** A string for which the classification loop asks for no backslash
    escaping: it runs to the end and leaves the brace count at zero. *)
Definition selfContained (r : jsstring) : bool :=
  negb (finalSlash (scanFrom (Array_from r) scanStart)).

(** Value of a lowercase hexadecimal digit. *)
Definition hexValue (h : codeUnit) : N :=
  (if h <? 58 then h - 48 else h - 87)%N.

(** The unit a backslash followed by [x] stands for, [x] not being the
    letter x. *)
Definition escapedUnit (x : codeUnit) : codeUnit :=
  (if x =? 98 then 8 else if x =? 102 then 12 else if x =? 110 then 10
   else if x =? 114 then 13 else if x =? 116 then 9 else if x =? 118 then 11
   else x)%N.

(** Reads a backslash-escaped string back, unit by unit. *)
Fixpoint unescape (r : jsstring) : jsstring :=
  match r with
  | [] => []
  | u :: rest =>
      if (u =? BACKSLASH)%N then
        match rest with
        | [] => []
        | x :: rest' =>
            if (x =? 120)%N then
              match rest' with
              | h1 :: h2 :: rest'' =>
                  (hexValue h1 * 16 + hexValue h2)%N :: unescape rest''
              | _ => []
              end
            else escapedUnit x :: unescape rest'
        end
      else u :: unescape rest
  end.

(** The locals of the loop with [k] more open braces and the brace request
    [b] already made. *)
Definition lift (k : nat) (b : bool) (st : scanState) : scanState :=
  mkScan (requireSlashQuote st) (requireBraceQuote st || b)
         (braceCount st + k).

(** One pair of braces around a string. *)
Definition braced (s : jsstring) : jsstring := [LBRACE] ++ s ++ [RBRACE].

(** A string in which a control character can only stand right after a
    backslash that is not itself protected by a backslash. *)
Fixpoint controlsProtected (r : jsstring) : bool :=
  match r with
  | [] => true
  | u :: rest =>
      if (u =? BACKSLASH)%N then
        match rest with
        | [] => true
        | _ :: rest' => controlsProtected rest'
        end
      else negb (isControl u) && controlsProtected rest
  end.

(** Where the first word of a list ends for a reader that takes a backslash
    together with the character after it, counts braces inside a word that
    starts with a brace, and stops a bare word at a space. *)
Fixpoint bareWordLength (r : jsstring) : nat :=
  match r with
  | [] => 0
  | u :: rest =>
      if (u =? SPACE)%N then 0
      else if (u =? BACKSLASH)%N then
        match rest with
        | [] => 1
        | _ :: rest' => 2 + bareWordLength rest'
        end
      else 1 + bareWordLength rest
  end.

Fixpoint bracedWordLength (depth : nat) (r : jsstring) : nat :=
  match r with
  | [] => 0
  | u :: rest =>
      if (u =? BACKSLASH)%N then
        match rest with
        | [] => 1
        | _ :: rest' => 2 + bracedWordLength depth rest'
        end
      else if (u =? LBRACE)%N then 1 + bracedWordLength (S depth) rest
      else if (u =? RBRACE)%N then
        match depth with
        | S (S depth') => 1 + bracedWordLength (S depth') rest
        | _ => 1
        end
      else 1 + bracedWordLength depth rest
  end.

Definition wordLength (r : jsstring) : nat :=
  match r with
  | [] => 0
  | u :: rest =>
      if (u =? LBRACE)%N then 1 + bracedWordLength 1 rest
      else bareWordLength r
  end.

(** What may follow an element in a list: nothing, or a space and more. *)
Definition endsWord (t : jsstring) : Prop :=
  t = [] \/ exists t', t = SPACE :: t'.

(** The three shapes of an escaped unit. *)
Definition escapeShape (u : codeUnit) : bool :=
  match slashQuoteCharacter [u] with
  | [a] => (a =? u)%N && isPlain u
  | [a; x] =>
      (a =? BACKSLASH)%N && negb (x =? 120)%N && negb (isControl x)
      && (escapedUnit x =? u)%N && negb (isPlain u)
  | [a; x; h1; h2] =>
      (a =? BACKSLASH)%N && (x =? 120)%N && isPlain h1 && isPlain h2
      && (hexValue h1 * 16 + hexValue h2 =? u)%N && isControl u
  | _ => false
  end.

(** The same, as the cases a proof goes through. *)
Inductive escapeCase (u : codeUnit) : jsstring -> Prop :=
| escape_plain :
    isPlain u = true -> escapeCase u [u]
| escape_pair x :
    x <> 120%N -> isControl x = false -> escapedUnit x = u ->
    isPlain u = false ->
    escapeCase u [BACKSLASH; x]
| escape_hex h1 h2 :
    isPlain h1 = true -> isPlain h2 = true ->
    (hexValue h1 * 16 + hexValue h2)%N = u -> isControl u = true ->
    escapeCase u [BACKSLASH; 120%N; h1; h2].

(** ** [src/unnamed/part_000]: [permutations]

    The generator is modelled by the list of the arrays it yields, in the
    order it yields them.  [fuel] bounds the depth of the recursion; the
    branch for an index outside the array is never reached, the loop keeping
    [index < toPermute.length]. *)

Section Permutations.

Variable T : Type.

(** The [for] loop over [index]; [recur] is the recursive call. *)
Fixpoint permutations_forIndex
    (recur : list T -> list T -> completion (list (list T)))
    (toPermute prefix : list T) (indices : list nat)
    : completion (list (list T)) :=
  match indices with
  | [] => Ok []
  | index :: later =>
      match nth_error toPermute index with
      | None => Throw TypeError
      | Some nextItem =>
          let newPrefix := prefix ++ [nextItem] in
          let stillNeedToPermute :=
            firstn index toPermute ++ skipn (index + 1) toPermute in
          yielded <- recur stillNeedToPermute newPrefix ;;
          more <- permutations_forIndex recur toPermute prefix later ;;
          Ok (yielded ++ more)
      end
  end.

Fixpoint permutations_fuel (fuel : nat) (toPermute prefix : list T)
    : completion (list (list T)) :=
  if length toPermute =? 0 then Ok [prefix]
  else
    match fuel with
    | O => Throw FuelExhausted
    | S fuel' =>
        permutations_forIndex (permutations_fuel fuel') toPermute prefix
          (seq 0 (length toPermute))
    end.

Definition permutations (toPermute prefix : list T)
    : completion (list (list T)) :=
  permutations_fuel (length toPermute) toPermute prefix.

(** What the yielded arrays must be: as many as the factorial says, exactly
    the rearrangements of [toPermute] behind [prefix], without a repetition
    when [toPermute] has none. *)
Definition yieldsAll (toPermute prefix : list T) (yielded : list (list T))
    : Prop :=
  length yielded = fact (length toPermute)
  /\ (forall q, In q yielded
                <-> exists p, Permutation toPermute p /\ q = prefix ++ p)
  /\ (NoDup toPermute -> NoDup yielded).

End Permutations.

Arguments permutations_forIndex {T} recur toPermute prefix indices.
Arguments permutations_fuel {T} fuel toPermute prefix.
Arguments permutations {T} toPermute prefix.
Arguments yieldsAll {T} toPermute prefix yielded.

(** ** [src/unnamed/part_000]: [positiveModulo] and [rotateArray]

    Numbers are modelled by the integers, which covers the arguments that
    are integers of at most 53 bits, where the arithmetic of JavaScript is
    exact; [None] stands for NaN in [positiveModulo] and for a thrown error
    in [rotateArray]. *)

Definition isSafeInteger (z : Z) : bool :=
  ((- (2 ^ 53 - 1) <=? z) && (z <=? 2 ^ 53 - 1))%Z.

(** [z | 0]. *)
Definition ToInt32 (z : Z) : Z := ((z + 2 ^ 31) mod 2 ^ 32 - 2 ^ 31)%Z.

Definition positiveModulo (numerator denominator : Z) : option Z :=
  if (denominator =? 0)%Z then None
  else
    let simpleAnswer := Z.rem numerator denominator in
    if (simpleAnswer <? 0)%Z then Some (simpleAnswer + Z.abs denominator)%Z
    else Some simpleAnswer.

Definition rotateArray {T} (input : list T) (by_ : Z) : option (list T) :=
  if negb (ToInt32 by_ =? by_)%Z then None
  else
    match positiveModulo by_ (Z.of_nat (length input)) with
    | None =>
        (* [by] is NaN: [by == 0] is false, [slice(NaN)] is [slice(0)] and
           [slice(0, NaN)] is empty *)
        Some (skipn 0 input ++ firstn 0 input)
    | Some by1 =>
        if (by1 =? 0)%Z then Some input
        else Some (skipn (Z.to_nat by1) input ++ firstn (Z.to_nat by1) input)
    end.

(** ** [src/unnamed/part_000]: [shuffleArray]

    The array is modelled by the list of its elements and the random
    numbers by [random]: [random i] is the value
    [Math.floor(Math.random() * (i + 1))] of the pass for [i], which lies
    between 0 and [i].  An index outside the array is never used, the loop
    keeping [j <= i < array.length]; the model leaves the array as it is
    there. *)

Section Shuffle.

Variable T : Type.

(** [array[index] = value]. *)
Definition assignAt (index : nat) (value : T) (array : list T) : list T :=
  if index <? length array
  then firstn index array ++ value :: skipn (S index) array
  else array.

(** [[array[i], array[j]] = [array[j], array[i]]]. *)
Definition swapElements (i j : nat) (array : list T) : list T :=
  match nth_error array j, nth_error array i with
  | Some atJ, Some atI => assignAt j atI (assignAt i atJ array)
  | _, _ => array
  end.

(** [for (let i = array.length - 1; i > 0; i--)]. *)
Fixpoint shuffleArray_loop (i : nat) (random : nat -> nat) (array : list T)
    : list T :=
  match i with
  | O => array
  | S i' =>
      let j := random i in
      shuffleArray_loop i' random (swapElements i j array)
  end.

Definition shuffleArray (random : nat -> nat) (array : list T) : list T :=
  shuffleArray_loop (length array - 1) random array.

End Shuffle.

Arguments assignAt {T} index value array.
Arguments swapElements {T} i j array.
Arguments shuffleArray_loop {T} i random array.
Arguments shuffleArray {T} random array.

(** * Proofs *)

(** ** Basic facts *)

Lemma strictEq_spec (a b : jsstring) : strictEq a b = true <-> a = b.
Proof.
  revert b; induction a as [|x a IH]; intros [|y b]; simpl;
    try (split; [discriminate | discriminate]); try tauto.
  rewrite andb_true_iff, N.eqb_eq, IH.
  split; [intros [-> ->]; reflexivity | intros E; inversion E; auto].
Qed.

Lemma strictEq_refl (a : jsstring) : strictEq a a = true.
Proof. apply strictEq_spec; reflexivity. Qed.

Lemma strictEq_nil (s : jsstring) :
  strictEq s [] = match s with [] => true | _ => false end.
Proof. destruct s; reflexivity. Qed.

Lemma skipn_nth_error {A} (l : list A) (i : nat) (x : A) :
  nth_error l i = Some x -> skipn i l = x :: skipn (S i) l.
Proof.
  revert i; induction l as [|y l IH]; intros [|i] H; simpl in *;
    try discriminate.
  - inversion H; reflexivity.
  - apply IH; assumption.
Qed.

Lemma skipn_nil_iff {A} (l : list A) (i : nat) :
  skipn i l = [] <-> length l <= i.
Proof.
  revert i; induction l as [|y l IH]; intros [|i]; simpl.
  - split; auto.
  - split; auto with arith.
  - split; [discriminate | lia].
  - rewrite IH; lia.
Qed.

(** Induction that follows a loop which may step over one element. *)
Lemma list_skip_ind {A} (Q : list A -> Prop) :
  Q [] ->
  (forall c rest,
      Q rest -> (forall d rest', rest = d :: rest' -> Q rest') ->
      Q (c :: rest)) ->
  forall l, Q l.
Proof.
  intros Hnil Hstep l.
  enough (H : Q l /\ (forall d l', l = d :: l' -> Q l')) by apply H.
  induction l as [|x l [IH1 IH2]].
  - split; [assumption | discriminate].
  - split.
    + apply Hstep; assumption.
    + intros d l' E; inversion E; subst; assumption.
Qed.

(** Induction over a string by code points. *)
Lemma codePoint_ind (P : jsstring -> Prop) :
  P [] ->
  (forall u v rest,
      isHighSurrogate u = true -> isLowSurrogate v = true ->
      Array_from (u :: v :: rest) = [u; v] :: Array_from rest ->
      P rest -> P (u :: v :: rest)) ->
  (forall u rest,
      Array_from (u :: rest) = [u] :: Array_from rest ->
      P rest -> P (u :: rest)) ->
  forall s, P s.
Proof.
  intros Hnil Hpair Hone s.
  enough (H : P s /\ forall u, P (u :: s)) by apply H.
  induction s as [|v s [IH1 IH2]].
  - split; [assumption | intros u; apply Hone; [reflexivity | assumption]].
  - split; [apply IH2 |].
    intros u.
    destruct (isHighSurrogate u && isLowSurrogate v) eqn:E.
    + apply andb_true_iff in E as [Eu Ev].
      apply Hpair; try assumption.
      simpl. rewrite Eu, Ev. reflexivity.
    + apply Hone; [| apply IH2].
      simpl. simpl in E. rewrite E. reflexivity.
Qed.

Lemma Array_from_nonempty (s : jsstring) :
  Forall (fun c => c <> []) (Array_from s).
Proof.
  induction s as [| u v rest Hu Hv E IH | u rest E IH] using codePoint_ind.
  - constructor.
  - rewrite E; constructor; [discriminate | assumption].
  - rewrite E; constructor; [discriminate | assumption].
Qed.

Lemma Array_from_concat (s : jsstring) : concat (Array_from s) = s.
Proof.
  induction s as [| u v rest Hu Hv E IH | u rest E IH] using codePoint_ind.
  - reflexivity.
  - rewrite E; simpl; rewrite IH; reflexivity.
  - rewrite E; simpl; rewrite IH; reflexivity.
Qed.

Lemma Array_from_nil_iff (s : jsstring) : Array_from s = [] <-> s = [].
Proof.
  split; [| intros ->; reflexivity].
  intros E. rewrite <- (Array_from_concat s), E. reflexivity.
Qed.

(** ** The loop of [tclQuote] computes [scanFrom] *)

Lemma loopBody_classify asArray inputLength i st character :
  nth_error asArray i = Some character ->
  loopBody asArray inputLength i st =
    Ok (let '(st', skip) := classify character (i + 1 =? inputLength) st in
        (st', if skip then i + 1 else i)).
Proof.
  intros E. unfold loopBody, classify. rewrite E.
  repeat match goal with
         | |- context [if ?b then _ else _] => destruct b
         end; try reflexivity.
  destruct (braceCount st); reflexivity.
Qed.

Lemma nth_error_skipn_hd {A} (l : list A) (i : nat) (d : A) (rest : list A) :
  skipn i l = d :: rest -> nth_error l i = Some d /\ skipn (S i) l = rest.
Proof.
  revert i; induction l as [|y l IH]; intros [|i] H; simpl in *;
    try discriminate.
  - inversion H; auto.
  - apply IH; assumption.
Qed.

Lemma classify_skip_not_last character st st' :
  classify character true st <> (st', true).
Proof.
  unfold classify.
  repeat match goal with
         | |- context [if ?b then _ else _] => destruct b
         end; try discriminate.
  destruct (braceCount st); discriminate.
Qed.

Lemma scanLoop_scanFrom fuel : forall asArray i st,
  requireSlashQuote st = false ->
  length asArray - i <= fuel ->
  scanLoop fuel asArray (length asArray) i st
  = Ok (scanFrom (skipn i asArray) st).
Proof.
  induction fuel as [|fuel IH]; intros asArray i st Hst Hfuel.
  - simpl. destruct (Nat.ltb_spec i (length asArray)); [lia |].
    rewrite (proj2 (skipn_nil_iff asArray i)) by lia. reflexivity.
  - cbn [scanLoop]. destruct (Nat.ltb_spec i (length asArray)) as [Hi | Hi].
    2: { rewrite (proj2 (skipn_nil_iff asArray i)) by lia. reflexivity. }
    destruct (nth_error asArray i) as [character|] eqn:E.
    2: { apply nth_error_None in E. lia. }
    rewrite (@loopBody_classify asArray (length asArray) i st character E).
    rewrite (@skipn_nth_error _ asArray i character E).
    assert (Hlast : (i + 1 =? length asArray)
                    = match skipn (S i) asArray with
                      | [] => true | _ => false end).
    { destruct (skipn (S i) asArray) eqn:Es.
      - apply skipn_nil_iff in Es. apply Nat.eqb_eq. lia.
      - apply Nat.eqb_neq. intros Hn.
        assert (Hnil : skipn (S i) asArray = [])
          by (apply skipn_nil_iff; lia).
        rewrite Hnil in Es. discriminate. }
    rewrite Hlast.
    remember (skipn (S i) asArray) as rest eqn:Es.
    cbn [scanFrom bind].
    destruct (classify character
                (match rest with [] => true | _ => false end) st)
      as [st' skip] eqn:Ec.
    destruct (requireSlashQuote st') eqn:Hs; [reflexivity |].
    destruct skip.
    + destruct rest as [|d rest'].
      * exfalso. exact (classify_skip_not_last _ _ _ Ec).
      * symmetry in Es. apply nth_error_skipn_hd in Es as [Hd Es'].
        assert (S i < length asArray)
          by (apply nth_error_Some; rewrite Hd; discriminate).
        replace (S (i + 1)) with (S (S i)) by lia.
        rewrite IH; [rewrite Es'; reflexivity | assumption | lia].
    + rewrite IH; [rewrite Es; reflexivity | assumption | lia].
Qed.

(** [tclQuote] always returns, and returns [quoteElement]. *)
Lemma tclQuote_quoteElement (s : jsstring) : tclQuote s = Ok (quoteElement s).
Proof.
  unfold tclQuote, quoteElement.
  destruct (strictEq s []); [reflexivity |].
  cbv zeta.
  rewrite scanLoop_scanFrom by (reflexivity || lia).
  simpl skipn. simpl bind. unfold finalSlash.
  destruct (negb (braceCount _ =? 0)); [reflexivity |].
  destruct (requireSlashQuote _); [reflexivity |].
  destruct (requireBraceQuote _); reflexivity.
Qed.

(** ** Classification of one character *)

Ltac unit_cases :=
  unfold isPlain, isSurrogate, isControl, isBrace, isHighSurrogate,
    isLowSurrogate, SPACE, DQUOTE, BACKSLASH, LBRACE, RBRACE in *;
  repeat match goal with
         | H : _ && _ = true |- _ => apply andb_true_iff in H as [? ?]
         | H : _ || _ = false |- _ => apply orb_false_iff in H as [? ?]
         | H : negb _ = true |- _ => apply negb_true_iff in H
         | H : negb _ = false |- _ => apply negb_false_iff in H
         | H : (_ =? _)%N = true |- _ => apply N.eqb_eq in H
         | H : (_ =? _)%N = false |- _ => apply N.eqb_neq in H
         | H : (_ <? _)%N = true |- _ => apply N.ltb_lt in H
         | H : (_ <? _)%N = false |- _ => apply N.ltb_ge in H
         | H : (_ <=? _)%N = true |- _ => apply N.leb_le in H
         | H : (_ <=? _)%N = false |- _ => apply N.leb_gt in H
         end.

Ltac unit_decide :=
  repeat match goal with
         | |- context [(?a =? ?b)%N] => destruct (N.eqb_spec a b)
         | |- context [(?a <? ?b)%N] => destruct (N.ltb_spec a b)
         | |- context [(?a <=? ?b)%N] => destruct (N.leb_spec a b)
         end;
  simpl; try reflexivity; try discriminate; try lia.

Lemma classify_pair u v isLast st : classify [u; v] isLast st = (st, false).
Proof. reflexivity. Qed.

Lemma classify_unit u isLast st :
  classify [u] isLast st =
    if isControl u then (setSlash st, false)
    else if ((u =? SPACE) || (u =? DQUOTE))%N then (setBrace st, false)
    else if (u =? BACKSLASH)%N then
      if isLast then (setSlash st, false) else (setBrace st, true)
    else if (u =? LBRACE)%N
    then (mkScan (requireSlashQuote st) true (braceCount st + 1), false)
    else if (u =? RBRACE)%N then
      match braceCount st with
      | S n => (mkScan (requireSlashQuote st) true n, false)
      | O => (setSlash (setBrace st), false)
      end
    else (st, false).
Proof.
  unfold classify, isUnprintableAscii, isControl. simpl.
  rewrite !andb_true_r. reflexivity.
Qed.

Lemma classify_plain u isLast st :
  isPlain u = true -> classify [u] isLast st = (st, false).
Proof.
  rewrite classify_unit. unfold isPlain, isBrace.
  destruct (isControl u), (u =? SPACE)%N, (u =? DQUOTE)%N,
    (u =? BACKSLASH)%N, (u =? LBRACE)%N, (u =? RBRACE)%N;
    simpl; intros H; try discriminate; reflexivity.
Qed.

Lemma surrogate_isPlain u : isSurrogate u = true -> isPlain u = true.
Proof.
  intros H. apply orb_true_iff in H as [H | H]; unit_cases;
    unfold isPlain, isControl, isBrace, SPACE, DQUOTE, BACKSLASH, LBRACE,
      RBRACE; unit_decide.
Qed.

Lemma scanFrom_cons character rest st :
  scanFrom (character :: rest) st =
    let '(st', skip) :=
      classify character (match rest with [] => true | _ => false end) st in
    if requireSlashQuote st' then st'
    else if skip then
      match rest with
      | [] => st'
      | _ :: rest' => scanFrom rest' st'
      end
    else scanFrom rest st'.
Proof. reflexivity. Qed.

(** Characters the scan leaves alone. *)
Lemma scanFrom_skip_pair u v chars st :
  requireSlashQuote st = false ->
  scanFrom ([u; v] :: chars) st = scanFrom chars st.
Proof.
  intros H. rewrite scanFrom_cons, classify_pair, H. reflexivity.
Qed.

(** ** Strings without control characters and backslashes *)

Lemma scanFrom_tame (s : jsstring) : forall st,
  requireSlashQuote st = false ->
  forallb tame s = true ->
  balancedFrom (braceCount st) s = true ->
  scanFrom (Array_from s) st
  = mkScan false (requireBraceQuote st || existsb needsBraceUnit s) 0.
Proof.
  induction s as [| u v rest Hu Hv E IH | u rest E IH] using codePoint_ind;
    intros st Hst Htame Hbal.
  - destruct st as [sl br n]; simpl in *. subst sl.
    apply Nat.eqb_eq in Hbal; subst n. rewrite orb_false_r. reflexivity.
  - rewrite E, scanFrom_skip_pair by assumption.
    simpl in Htame. apply andb_true_iff in Htame as [_ Htame].
    apply andb_true_iff in Htame as [_ Htame].
    assert (Pu : isPlain u = true)
      by (apply surrogate_isPlain; unfold isSurrogate; rewrite Hu; reflexivity).
    assert (Pv : isPlain v = true)
      by (apply surrogate_isPlain; unfold isSurrogate; rewrite Hv;
          apply orb_true_r).
    assert (Bu : needsBraceUnit u = false /\ (u =? LBRACE)%N = false
                 /\ (u =? RBRACE)%N = false)
      by (clear -Pu; unfold needsBraceUnit; unit_cases;
          repeat split; unit_decide).
    assert (Bv : needsBraceUnit v = false /\ (v =? LBRACE)%N = false
                 /\ (v =? RBRACE)%N = false)
      by (clear -Pv; unfold needsBraceUnit; unit_cases;
          repeat split; unit_decide).
    destruct Bu as (Bu1 & Bu2 & Bu3). destruct Bv as (Bv1 & Bv2 & Bv3).
    simpl in Hbal. rewrite Bu2, Bu3, Bv2, Bv3 in Hbal.
    simpl existsb. rewrite Bu1, Bv1. simpl.
    apply IH; assumption.
  - rewrite E, scanFrom_cons, classify_unit.
    simpl in Htame. apply andb_true_iff in Htame as [Hu Htame].
    unfold tame in Hu. apply andb_true_iff in Hu as [Hc Hb].
    apply negb_true_iff in Hc. apply negb_true_iff in Hb.
    rewrite Hc, Hb.
    simpl in Hbal. simpl existsb. unfold needsBraceUnit at 1, isBrace.
    destruct ((u =? SPACE) || (u =? DQUOTE))%N eqn:Hsq.
    + assert (Bu : (u =? LBRACE)%N = false /\ (u =? RBRACE)%N = false)
        by (clear -Hsq; apply orb_true_iff in Hsq as [H | H]; unit_cases;
            subst; split; reflexivity).
      destruct Bu as [Bu1 Bu2]. rewrite Bu1, Bu2 in Hbal.
      simpl. rewrite Hst.
      rewrite (IH (setBrace st)) by assumption.
      simpl. rewrite orb_true_r. reflexivity.
    + destruct (u =? LBRACE)%N eqn:Hl.
      * cbn [requireSlashQuote]. rewrite Hst.
        rewrite IH; cbn [requireSlashQuote requireBraceQuote braceCount];
          [ simpl; rewrite orb_true_r; reflexivity | reflexivity | assumption
          | rewrite Nat.add_1_r; assumption ].
      * destruct (u =? RBRACE)%N eqn:Hr.
        -- destruct (braceCount st) as [|n] eqn:Hn; [discriminate |].
           cbn [requireSlashQuote]. rewrite Hst.
           rewrite IH; cbn [requireSlashQuote requireBraceQuote braceCount];
             [ simpl; rewrite !orb_true_r; reflexivity | reflexivity
             | assumption | assumption ].
        -- rewrite Hst. simpl. apply IH; assumption.
Qed.

Lemma forallb_impl {A} (p q : A -> bool) (l : list A) :
  (forall x, p x = true -> q x = true) ->
  forallb p l = true -> forallb q l = true.
Proof.
  intros Hpq. induction l as [|x l IH]; simpl; [reflexivity |].
  intros H. apply andb_true_iff in H as [Hx Hl].
  rewrite (Hpq _ Hx), (IH Hl). reflexivity.
Qed.

Lemma existsb_agree {A} (p q : A -> bool) (r : A -> bool) (l : list A) :
  (forall x, r x = true -> p x = q x) ->
  forallb r l = true -> existsb p l = existsb q l.
Proof.
  intros Hpq. induction l as [|x l IH]; simpl; [reflexivity |].
  intros H. apply andb_true_iff in H as [Hx Hl].
  rewrite (Hpq _ Hx), (IH Hl). reflexivity.
Qed.

Lemma balancedFrom_noBrace (s : jsstring) : forall depth,
  forallb (fun u => negb (isBrace u)) s = true ->
  balancedFrom depth s = (depth =? 0).
Proof.
  induction s as [|u s IH]; intros depth H; simpl in *; [reflexivity |].
  apply andb_true_iff in H as [Hu Hs].
  apply negb_true_iff in Hu. unfold isBrace in Hu.
  apply orb_false_iff in Hu as [Hl Hr]. rewrite Hl, Hr.
  apply IH; assumption.
Qed.

(** The result of quoting a string that has balanced braces and neither
    control characters nor backslashes. *)
Lemma quoteElement_tame (s : jsstring) :
  s <> [] ->
  forallb tame s = true ->
  balancedBraces s = true ->
  quoteElement s
  = if existsb needsBraceUnit s then [LBRACE] ++ s ++ [RBRACE] else s.
Proof.
  intros Hne Htame Hbal. unfold quoteElement.
  rewrite strictEq_nil. destruct s as [|u s']; [contradiction |].
  cbv zeta. rewrite scanFrom_tame by (reflexivity || assumption).
  reflexivity.
Qed.

Lemma isPlain_tame u : isPlain u = true -> tame u = true.
Proof.
  unfold isPlain, tame.
  destruct (isControl u), (u =? SPACE)%N, (u =? DQUOTE)%N,
    (u =? BACKSLASH)%N, (isBrace u); simpl; intros H;
    try discriminate; reflexivity.
Qed.

Lemma isBrace_tame u : isBrace u = true -> tame u = true.
Proof.
  intros H. apply orb_true_iff in H as [H | H]; unit_cases; subst;
    reflexivity.
Qed.

Lemma isSpace_tame u : (u =? SPACE)%N = true -> tame u = true.
Proof. intros H; unit_cases; subst; reflexivity. Qed.

Lemma isPlain_needsBraceUnit u : isPlain u = true -> needsBraceUnit u = false.
Proof.
  unfold isPlain, needsBraceUnit.
  destruct (isControl u), (u =? SPACE)%N, (u =? DQUOTE)%N,
    (u =? BACKSLASH)%N, (isBrace u); simpl; intros H;
    try discriminate; reflexivity.
Qed.

Lemma isPlain_not_isBrace u : isPlain u = true -> isBrace u = false.
Proof.
  unfold isPlain.
  destruct (isControl u), (u =? SPACE)%N, (u =? DQUOTE)%N,
    (u =? BACKSLASH)%N, (isBrace u); simpl; intros H;
    try discriminate; reflexivity.
Qed.

Lemma plainOrBrace_cases u :
  plainOrBrace u = true -> isPlain u = true \/ isBrace u = true.
Proof.
  unfold plainOrBrace, isPlain. destruct (isBrace u); [auto |].
  rewrite orb_false_r. auto.
Qed.

Lemma plainOrSpace_cases u :
  plainOrSpace u = true -> isPlain u = true \/ (u =? SPACE)%N = true.
Proof.
  unfold plainOrSpace, isPlain.
  destruct (u =? SPACE)%N eqn:E; [auto |].
  rewrite orb_false_r. auto.
Qed.

Lemma isSpace_not_isBrace u : (u =? SPACE)%N = true -> isBrace u = false.
Proof. intros H; unit_cases; subst; reflexivity. Qed.

Lemma isBrace_needsBraceUnit u : isBrace u = true -> needsBraceUnit u = true.
Proof. unfold needsBraceUnit. intros ->. apply orb_true_r. Qed.

(** ** Backslashes at the end of the string *)

Lemma countLeading_all {A} (p : A -> bool) (l : list A) :
  forallb p l = true -> countLeading p l = length l.
Proof.
  induction l as [|x l IH]; simpl; [reflexivity |].
  intros H. apply andb_true_iff in H as [Hx Hl].
  rewrite Hx, IH by assumption. reflexivity.
Qed.

Lemma countLeading_snoc {A} (p : A -> bool) (l : list A) (c : A) :
  countLeading p (l ++ [c])
  = if forallb p l then length l + (if p c then 1 else 0)
    else countLeading p l.
Proof.
  induction l as [|x l IH]; simpl.
  - destruct (p c); reflexivity.
  - destruct (p x); simpl; [| reflexivity].
    rewrite IH. destruct (forallb p l); reflexivity.
Qed.

Lemma forallb_rev {A} (p : A -> bool) (l : list A) :
  forallb p (rev l) = forallb p l.
Proof.
  induction l as [|x l IH]; simpl; [reflexivity |].
  rewrite forallb_app, IH. simpl. rewrite andb_true_r. apply andb_comm.
Qed.

Lemma trailingRun_cons c rest :
  trailingRun (c :: rest)
  = if forallb isBackslashCharacter rest
    then length rest + (if isBackslashCharacter c then 1 else 0)
    else trailingRun rest.
Proof.
  unfold trailingRun. simpl rev.
  rewrite countLeading_snoc, forallb_rev, length_rev. reflexivity.
Qed.

Lemma trailingRun_all rest :
  forallb isBackslashCharacter rest = true -> trailingRun rest = length rest.
Proof.
  intros H. unfold trailingRun.
  rewrite countLeading_all, length_rev; [reflexivity |].
  rewrite forallb_rev. assumption.
Qed.

Lemma trailingRun_cons_other c rest :
  isBackslashCharacter c = false -> trailingRun (c :: rest) = trailingRun rest.
Proof.
  intros Hc. rewrite trailingRun_cons, Hc.
  destruct (forallb isBackslashCharacter rest) eqn:E; [| reflexivity].
  rewrite trailingRun_all by assumption. lia.
Qed.

Lemma trailingRun_cons_protected c d rest :
  isBackslashCharacter c = true ->
  Nat.odd (trailingRun (c :: d :: rest)) = Nat.odd (trailingRun rest).
Proof.
  intros Hc. rewrite trailingRun_cons, Hc. simpl forallb.
  destruct (isBackslashCharacter d) eqn:Hd; simpl andb.
  - rewrite trailingRun_cons.
    destruct (forallb isBackslashCharacter rest) eqn:E.
    + rewrite trailingRun_all by assumption. simpl length.
      replace (S (length rest) + 1) with (S (S (length rest))) by lia.
      reflexivity.
    + reflexivity.
  - rewrite trailingRun_cons_other by assumption. reflexivity.
Qed.

Lemma classify_backslash isLast st :
  classify [BACKSLASH] isLast st
  = if isLast then (setSlash st, false) else (setBrace st, true).
Proof. reflexivity. Qed.

Lemma classify_other_no_skip c isLast st :
  isBackslashCharacter c = false -> snd (classify c isLast st) = false.
Proof.
  unfold isBackslashCharacter, classify. intros ->.
  repeat match goal with
         | |- context [if ?b then _ else _] => destruct b
         end; try reflexivity.
  destruct (braceCount st); reflexivity.
Qed.

Lemma scanFrom_odd_tail (chars : list jsstring) : forall st,
  requireSlashQuote st = false ->
  Nat.odd (trailingRun chars) = true ->
  requireSlashQuote (scanFrom chars st) = true.
Proof.
  induction chars as [| c rest IH1 IH2] using list_skip_ind;
    intros st Hst Hodd.
  - discriminate.
  - rewrite scanFrom_cons.
    destruct (isBackslashCharacter c) eqn:Hc.
    + apply strictEq_spec in Hc as Ec. subst c.
      rewrite classify_backslash.
      destruct rest as [|d rest'].
      * reflexivity.
      * cbn [requireSlashQuote setBrace]. rewrite Hst.
        apply (IH2 d rest' eq_refl); [assumption |].
        rewrite <- Hodd. symmetry.
        apply trailingRun_cons_protected. assumption.
    + pose proof (classify_other_no_skip c
                    (match rest with [] => true | _ => false end) st Hc)
        as Hskip.
      destruct (classify c _ st) as [st' skip]. simpl in Hskip. subst skip.
      destruct (requireSlashQuote st') eqn:Hs; [assumption |].
      apply IH1; [assumption |].
      rewrite <- (trailingRun_cons_other c rest Hc). assumption.
Qed.

Lemma finalSlash_of_slash st :
  requireSlashQuote st = true -> finalSlash st = true.
Proof.
  intros H. unfold finalSlash. rewrite H.
  destruct (negb (braceCount st =? 0)); reflexivity.
Qed.

Lemma quoteElement_slash (s : jsstring) :
  s <> [] ->
  finalSlash (scanFrom (Array_from s) scanStart) = true ->
  quoteElement s = slashQuote s.
Proof.
  intros Hne H. unfold quoteElement. rewrite strictEq_nil.
  destruct s; [contradiction |]. cbv zeta. rewrite H. reflexivity.
Qed.

(** ** Unbalanced braces *)

Ltac resume_scan Hst Hwalk :=
  first [exact Hst | reflexivity | exact Hwalk].

Lemma scanFrom_unbalanced (chars : list jsstring) : forall st,
  requireSlashQuote st = false ->
  braceWalk (braceCount st) chars <> EndDepth 0 ->
  finalSlash (scanFrom chars st) = true.
Proof.
  induction chars as [| c rest IH1 IH2] using list_skip_ind;
    intros st Hst Hwalk.
  - simpl in *. unfold finalSlash.
    destruct (braceCount st); [contradiction | reflexivity].
  - rewrite scanFrom_cons. simpl in Hwalk. unfold classify.
    destruct (1 <? length c) eqn:Hlen.
    { (* more than one code unit: none of the one-unit cases applies *)
      assert (Hno : forall x, strictEq c [x] = false).
      { intros x. destruct c as [|a [|b c']]; try discriminate.
        simpl. apply andb_false_r. }
      rewrite !Hno in Hwalk. rewrite Hst. apply IH1; resume_scan Hst Hwalk. }
    destruct (isUnprintableAscii c).
    { apply finalSlash_of_slash; reflexivity. }
    destruct (strictEq c [SPACE] || strictEq c [DQUOTE]) eqn:Hsq.
    { assert (Hno : strictEq c [BACKSLASH] = false
                    /\ strictEq c [LBRACE] = false
                    /\ strictEq c [RBRACE] = false).
      { apply orb_true_iff in Hsq as [H | H]; apply strictEq_spec in H;
          subst c; repeat split; reflexivity. }
      destruct Hno as (H1 & H2 & H3). rewrite H1, H2, H3 in Hwalk.
      cbn [requireSlashQuote setBrace]. rewrite Hst.
      apply IH1; resume_scan Hst Hwalk. }
    destruct (strictEq c [BACKSLASH]).
    { destruct rest as [|d rest']; [apply finalSlash_of_slash; reflexivity |].
      cbn [requireSlashQuote setBrace]. rewrite Hst.
      apply (IH2 d rest' eq_refl); resume_scan Hst Hwalk. }
    destruct (strictEq c [LBRACE]).
    { cbn [requireSlashQuote]. rewrite Hst.
      apply IH1; [resume_scan Hst Hwalk |].
      cbn [braceCount]. rewrite Nat.add_1_r. exact Hwalk. }
    destruct (strictEq c [RBRACE]).
    { destruct (braceCount st) as [|n] eqn:Hn.
      - apply finalSlash_of_slash; reflexivity.
      - cbn [requireSlashQuote]. rewrite Hst.
        apply IH1; resume_scan Hst Hwalk. }
    rewrite Hst. apply IH1; resume_scan Hst Hwalk.
Qed.

(** ** The escaping pass *)

Lemma fold_left_append {A} (f : A -> jsstring) (l : list A) (acc : jsstring) :
  fold_left (fun result x => result ++ f x) l acc = acc ++ flat_map f l.
Proof.
  revert acc; induction l as [|x l IH]; intros acc; simpl.
  - rewrite app_nil_r. reflexivity.
  - rewrite IH, app_assoc. reflexivity.
Qed.

Lemma slashQuote_flat_map (s : jsstring) :
  slashQuote s = flat_map slashQuoteCharacter (Array_from s).
Proof.
  unfold slashQuote.
  exact (fold_left_append slashQuoteCharacter (Array_from s) []).
Qed.

Lemma slashQuoteCharacter_nonempty (c : jsstring) :
  c <> [] -> slashQuoteCharacter c <> [].
Proof.
  intros Hc. unfold slashQuoteCharacter.
  repeat match goal with
         | |- context [if ?b then _ else _] => destruct b
         end; try discriminate.
  assumption.
Qed.

Lemma slashQuote_nonempty (s : jsstring) : s <> [] -> slashQuote s <> [].
Proof.
  intros Hs. rewrite slashQuote_flat_map.
  pose proof (Array_from_nonempty s) as Hall.
  destruct (Array_from s) as [|c rest] eqn:E.
  - apply Array_from_nil_iff in E. contradiction.
  - inversion Hall as [|? ? Hc _]; subst. simpl.
    pose proof (slashQuoteCharacter_nonempty c Hc) as Hq.
    destruct (slashQuoteCharacter c); [contradiction | discriminate].
Qed.

Lemma quoteElement_nonempty (s : jsstring) : quoteElement s <> [].
Proof.
  unfold quoteElement. rewrite strictEq_nil.
  destruct s as [|u s']; [discriminate |]. cbv zeta.
  destruct (finalSlash _).
  - apply slashQuote_nonempty. discriminate.
  - destruct (requireBraceQuote _); discriminate.
Qed.

(** ** Joining *)

Lemma join_cons2 sep p q rest :
  join sep (p :: q :: rest) = p ++ sep ++ join sep (q :: rest).
Proof. reflexivity. Qed.

Lemma join_absorb sep acc e es :
  join sep ((acc ++ sep ++ e) :: es) = acc ++ sep ++ join sep (e :: es).
Proof.
  destruct es as [|e' es]; [reflexivity |].
  rewrite !join_cons2, <- !app_assoc. reflexivity.
Qed.

Lemma decimalDigits_nonempty fuel : forall n acc,
  decimalDigits fuel n acc <> [].
Proof.
  induction fuel as [|fuel IH]; intros n acc; simpl; [discriminate |].
  destruct (n / 10 =? 0)%N; [discriminate | apply IH].
Qed.

Lemma integer_toString_nonempty (z : Z) : integer_toString z <> [].
Proof.
  destruct z; simpl; [discriminate | apply decimalDigits_nonempty |].
  discriminate.
Qed.

Lemma mapM_pointwise {A B} (f : A -> completion B) (g : A -> B) (l : list A) :
  Forall (fun a => f a = Ok (g a)) l -> mapM f l = Ok (List.map g l).
Proof.
  induction 1 as [|a l Ha _ IH]; simpl; [reflexivity |].
  rewrite Ha. simpl. rewrite IH. reflexivity.
Qed.

(** ** The list encoder *)

Section EncoderFacts.

Variable number : Type.
Variable Number_toString : number -> jsstring.

Local Abbreviation value := (TclListable number).
Local Abbreviation encode := (encodeTclListElement Number_toString).

(** Induction over a value and the values nested in it. *)
Lemma TclListable_nested_ind (P : value -> Prop) :
  (forall s, P (TString s)) ->
  (forall n, P (TNumber n)) ->
  (forall b, P (TBoolean b)) ->
  (forall items, Forall P items -> P (TIterable items)) ->
  forall v, P v.
Proof.
  intros Hs Hn Hb Hl.
  fix self 1. intros [s | n | b | items].
  - apply Hs.
  - apply Hn.
  - apply Hb.
  - apply Hl. induction items as [|item items IH]; constructor.
    + apply self.
    + apply IH.
Qed.

Lemma encode_TIterable (items : list value) :
  encode (TIterable items)
  = (encoded <- tclList Number_toString items ;; tclQuote encoded).
Proof. reflexivity. Qed.

Lemma tclList_forOf_cons item rest result :
  tclList_forOf Number_toString (item :: rest) result
  = (e <- encode item ;;
     tclList_forOf Number_toString rest
       ((if negb (strictEq result []) then result ++ [SPACE] else result)
        ++ e)).
Proof. reflexivity. Qed.

(** The loop of [tclList] when every element string is non-empty. *)
Lemma tclList_forOf_join (items : list value) : forall es result,
  mapM encode items = Ok es ->
  Forall (fun e => e <> []) es ->
  tclList_forOf Number_toString items result
  = Ok (join [SPACE] ((if strictEq result [] then [] else [result]) ++ es)).
Proof.
  induction items as [|item rest IH]; intros es result Hmap Hne.
  - simpl in Hmap. inversion Hmap; subst es. simpl.
    rewrite strictEq_nil. destruct result; reflexivity.
  - simpl in Hmap.
    destruct (encode item) as [e|] eqn:Ee; [| discriminate].
    simpl in Hmap.
    destruct (mapM encode rest) as [es'|] eqn:Em; [| discriminate].
    simpl in Hmap. inversion Hmap; subst es.
    inversion Hne as [|? ? He Hne']; subst.
    rewrite tclList_forOf_cons, Ee. simpl bind.
    rewrite (IH es' _ eq_refl Hne').
    f_equal. rewrite !strictEq_nil.
    destruct result as [|r result'].
    + simpl. destruct e; [contradiction | reflexivity].
    + simpl negb. cbv iota.
      change (((r :: result') ++ [SPACE]) ++ e)
        with (r :: ((result' ++ [SPACE]) ++ e)).
      cbv iota.
      change (r :: ((result' ++ [SPACE]) ++ e))
        with (((r :: result') ++ [SPACE]) ++ e).
      rewrite <- app_assoc.
      exact (join_absorb [SPACE] (r :: result') e es').
Qed.

Hypothesis Number_toString_nonempty : forall n, Number_toString n <> [].

Lemma mapM_encode_total (items : list value) :
  Forall (fun v => exists e, encode v = Ok e /\ e <> []) items ->
  exists es,
    mapM encode items = Ok es
    /\ Forall (fun e => e <> []) es
    /\ length es = length items.
Proof.
  induction 1 as [|item rest (e & He & Hne) _ (es & Hes & Hall & Hlen)].
  - exists []. repeat split; constructor.
  - exists (e :: es). simpl. rewrite He. simpl. rewrite Hes. simpl.
    repeat split; [constructor; assumption | congruence].
Qed.

Lemma encode_total_nonempty (v : value) :
  exists e, encode v = Ok e /\ e <> [].
Proof.
  induction v as [s | n | b | items IH] using TclListable_nested_ind.
  - exists (quoteElement s). split;
      [apply tclQuote_quoteElement | apply quoteElement_nonempty].
  - exists (Number_toString n). split;
      [reflexivity | apply Number_toString_nonempty].
  - destruct b; eexists; (split; [reflexivity | discriminate]).
  - destruct (mapM_encode_total items IH) as (es & Hes & Hall & _).
    rewrite encode_TIterable. unfold tclList.
    rewrite (tclList_forOf_join items es [] Hes Hall). simpl bind.
    eexists. split;
      [apply tclQuote_quoteElement | apply quoteElement_nonempty].
Qed.

Lemma tclList_join (items : list value) :
  exists es,
    mapM encode items = Ok es
    /\ Forall (fun e => e <> []) es
    /\ length es = length items
    /\ tclList Number_toString items = Ok (join [SPACE] es).
Proof.
  destruct (mapM_encode_total items) as (es & Hes & Hall & Hlen).
  { apply Forall_forall. intros v _. apply encode_total_nonempty. }
  exists es. repeat split; try assumption.
  unfold tclList. rewrite (tclList_forOf_join items es [] Hes Hall).
  reflexivity.
Qed.

Lemma encode_elementString_spec (v : value) :
  encode v = Ok (elementString_spec Number_toString v).
Proof.
  induction v as [s | n | b | items IH] using TclListable_nested_ind.
  - apply tclQuote_quoteElement.
  - reflexivity.
  - destruct b; reflexivity.
  - rewrite encode_TIterable.
    destruct (tclList_join items) as (es & Hes & _ & _ & Hjoin).
    rewrite (mapM_pointwise _ _ _ IH) in Hes. inversion Hes; subst es.
    rewrite Hjoin. simpl bind. rewrite tclQuote_quoteElement. reflexivity.
Qed.

Lemma tclList_encodeList_spec (items : list value) :
  tclList Number_toString items = Ok (encodeList_spec Number_toString items).
Proof.
  destruct (tclList_join items) as (es & Hes & _ & _ & Hjoin).
  rewrite (mapM_pointwise encode (elementString_spec Number_toString))
    in Hes.
  - inversion Hes; subst es. exact Hjoin.
  - apply Forall_forall. intros v _. apply encode_elementString_spec.
Qed.

End EncoderFacts.

(** ** Plain strings and surrogate halves *)

Lemma quoteElement_plain (s : jsstring) :
  s <> [] -> forallb isPlain s = true -> quoteElement s = s.
Proof.
  intros Hne Hall.
  rewrite quoteElement_tame; try assumption.
  - rewrite (existsb_agree needsBraceUnit (fun _ => false) isPlain).
    + replace (existsb (fun _ => false) s) with false; [reflexivity |].
      clear. induction s; simpl; auto.
    + intros x Hx. apply isPlain_needsBraceUnit. assumption.
    + assumption.
  - apply (forallb_impl isPlain tame); [apply isPlain_tame | assumption].
  - unfold balancedBraces. rewrite balancedFrom_noBrace; [reflexivity |].
    apply (forallb_impl isPlain); [| assumption].
    intros x Hx. rewrite isPlain_not_isBrace by assumption. reflexivity.
Qed.

Lemma quoteElement_forms (s : jsstring) :
  quoteElement s = s \/ visiblyQuoted s (quoteElement s) = true.
Proof.
  unfold quoteElement. rewrite strictEq_nil.
  destruct s as [|u s']; [right; reflexivity |]. cbv zeta.
  destruct (finalSlash _).
  - destruct (strictEq (slashQuote (u :: s')) (u :: s')) eqn:E.
    + left. apply strictEq_spec. assumption.
    + right. unfold visiblyQuoted. rewrite strictEq_refl, E.
      apply orb_true_r.
  - destruct (requireBraceQuote _); [right | left; reflexivity].
    unfold visiblyQuoted. rewrite strictEq_refl. reflexivity.
Qed.

Lemma loopBody_plain asArray inputLength i st u :
  nth_error asArray i = Some [u] -> isPlain u = true ->
  loopBody asArray inputLength i st = Ok (st, i).
Proof.
  intros E Hu.
  rewrite (loopBody_classify asArray inputLength i st [u] E).
  rewrite classify_plain by assumption. reflexivity.
Qed.

Ltac settle_comparisons :=
  repeat match goal with
         | |- context [(?a =? ?b)%N] =>
             replace (a =? b)%N with false
               by (symmetry; apply N.eqb_neq; lia)
         | |- context [(?a <? ?b)%N] =>
             replace (a <? b)%N with false
               by (symmetry; apply N.ltb_ge; lia)
         end.

Lemma slashQuoteCharacter_large (u : codeUnit) :
  (128 <= u)%N -> slashQuoteCharacter [u] = [u].
Proof.
  intros Hu. unfold slashQuoteCharacter, isUnprintableAscii. simpl.
  unfold SPACE, DQUOTE, BACKSLASH, LBRACE, RBRACE.
  settle_comparisons. reflexivity.
Qed.

Lemma surrogate_large u : isSurrogate u = true -> (128 <= u)%N.
Proof.
  intros H. apply orb_true_iff in H as [H | H]; unit_cases; lia.
Qed.

Lemma slashQuoteCharacter_surrogate u :
  isSurrogate u = true -> slashQuoteCharacter [u] = [u].
Proof.
  intros H. apply slashQuoteCharacter_large, surrogate_large. assumption.
Qed.

(** ** The cases of the unit test *)

Example testCases_pass : Forall testPasses testCases.
Proof. repeat constructor. Qed.

(** * Properties of the element quoter *)

(** C1, as stated, fails: the two-unit string made of an open and a close
    brace has balanced braces and none of the excluded characters, yet it is
    returned wrapped in one more pair of braces; the empty string is
    returned as a pair of braces. *)
Lemma C1_braces_are_wrapped :
  balancedBraces (js "{}") = true
  /\ forallb plainOrBrace (js "{}") = true
  /\ tclQuote (js "{}") = Ok (js "{{}}")
  /\ js "{{}}" <> js "{}"
  /\ balancedBraces [] = true
  /\ tclQuote [] = Ok (js "{}").
Proof. repeat split; try reflexivity. discriminate. Qed.

(** C1 (amended): a string with balanced braces and no control character,
    space, double quote or backslash is returned unchanged when it is not
    empty and holds no brace; when it is empty or holds a brace it is
    returned wrapped in one pair of braces. *)
Theorem C1_balanced_plain_quote (s : jsstring) :
  balancedBraces s = true ->
  forallb plainOrBrace s = true ->
  tclQuote s
  = Ok (if strictEq s [] || existsb isBrace s
        then [LBRACE] ++ s ++ [RBRACE] else s).
Proof.
  intros Hbal Hall. rewrite tclQuote_quoteElement. f_equal.
  destruct s as [|u s']; [reflexivity |].
  rewrite quoteElement_tame; try assumption; try discriminate.
  - rewrite (@existsb_agree _ needsBraceUnit isBrace plainOrBrace);
      [reflexivity | | assumption].
    intros x Hx. apply plainOrBrace_cases in Hx as [Hx | Hx].
    + rewrite isPlain_needsBraceUnit, isPlain_not_isBrace by assumption.
      reflexivity.
    + rewrite isBrace_needsBraceUnit, Hx by assumption. reflexivity.
  - apply (@forallb_impl _ plainOrBrace tame); [| assumption].
    intros x Hx. apply plainOrBrace_cases in Hx as [Hx | Hx];
      [apply isPlain_tame | apply isBrace_tame]; assumption.
Qed.

Lemma C1_balanced_plain_quote_witness :
  (balancedBraces (js "simple_value") = true
   /\ forallb plainOrBrace (js "simple_value") = true
   /\ tclQuote (js "simple_value") = Ok (js "simple_value"))
  /\ (balancedBraces (js "{a{b}}c") = true
      /\ tclQuote (js "{a{b}}c") = Ok (js "{{a{b}}c}")).
Proof.
  split.
  - split; [reflexivity | split; [reflexivity |]].
    exact (C1_balanced_plain_quote (js "simple_value") eq_refl eq_refl).
  - split; [reflexivity |].
    exact (C1_balanced_plain_quote (js "{a{b}}c") eq_refl eq_refl).
Defined.

(** C6: a string that holds at least one space and, apart from spaces,
    only plain content is returned as the same string inside one pair of
    braces. *)
Theorem C6_space_brace_wrapped (s : jsstring) :
  existsb (N.eqb SPACE) s = true ->
  forallb plainOrSpace s = true ->
  tclQuote s = Ok ([LBRACE] ++ s ++ [RBRACE]).
Proof.
  intros Hsp Hall. rewrite tclQuote_quoteElement. f_equal.
  assert (Hne : s <> []) by (intros ->; discriminate).
  assert (Hnb : forallb (fun u => negb (isBrace u)) s = true).
  { apply (@forallb_impl _ plainOrSpace); [| assumption].
    intros x Hx. apply negb_true_iff.
    apply plainOrSpace_cases in Hx as [Hx | Hx];
      [apply isPlain_not_isBrace | apply isSpace_not_isBrace]; assumption. }
  rewrite quoteElement_tame; try assumption.
  - replace (existsb needsBraceUnit s) with true; [reflexivity |].
    symmetry. apply existsb_exists.
    apply existsb_exists in Hsp as (x & Hin & Hx).
    exists x. split; [assumption |].
    apply N.eqb_eq in Hx. subst x. reflexivity.
  - apply (@forallb_impl _ plainOrSpace tame); [| assumption].
    intros x Hx. apply plainOrSpace_cases in Hx as [Hx | Hx];
      [apply isPlain_tame | apply isSpace_tame]; assumption.
  - unfold balancedBraces. rewrite balancedFrom_noBrace by assumption.
    reflexivity.
Qed.

Lemma C6_space_brace_wrapped_witness :
  existsb (N.eqb SPACE) (js "a b c") = true
  /\ forallb plainOrSpace (js "a b c") = true
  /\ tclQuote (js "a b c") = Ok (js "{a b c}").
Proof.
  split; [reflexivity | split; [reflexivity |]].
  exact (C6_space_brace_wrapped (js "a b c") eq_refl eq_refl).
Defined.

(** C7: the empty string is quoted as the two characters open brace, close
    brace. *)
Theorem C7_empty_string : tclQuote [] = Ok [LBRACE; RBRACE].
Proof. reflexivity. Qed.

(** C4, as stated, fails: the string made of two backslashes ends with a
    backslash, yet the scan takes the second one as protected by the first
    and the string is brace-quoted, not backslash-escaped. *)
Lemma C4_paired_backslash_is_braced :
  last (Array_from [BACKSLASH; BACKSLASH]) [] = [BACKSLASH]
  /\ tclQuote [BACKSLASH; BACKSLASH]
     = Ok [LBRACE; BACKSLASH; BACKSLASH; RBRACE]
  /\ slashQuote [BACKSLASH; BACKSLASH]
     = [BACKSLASH; BACKSLASH; BACKSLASH; BACKSLASH].
Proof. repeat split; reflexivity. Qed.

(** C4 (amended): a string that ends with an odd number of consecutive
    backslashes, so that its last backslash is not protected by the one
    before it, is backslash-escaped in full and never brace-quoted; in
    particular the five characters a, space, b, c, backslash become
    a, backslash, space, b, c, backslash, backslash. *)
Theorem C4_unpaired_trailing_backslash :
  (forall s : jsstring,
      Nat.odd (trailingBackslashes s) = true ->
      tclQuote s = Ok (slashQuote s))
  /\ tclQuote (js "a bc" ++ [BACKSLASH])
     = Ok (js "a" ++ [BACKSLASH] ++ js " bc" ++ [BACKSLASH; BACKSLASH]).
Proof.
  split; [| reflexivity].
  intros s Hodd. rewrite tclQuote_quoteElement. f_equal.
  apply quoteElement_slash.
  - intros ->. discriminate.
  - apply finalSlash_of_slash, scanFrom_odd_tail; [reflexivity | assumption].
Qed.

Lemma C4_unpaired_trailing_backslash_witness :
  Nat.odd (trailingBackslashes (js "a bc" ++ [BACKSLASH])) = true
  /\ tclQuote (js "a bc" ++ [BACKSLASH])
     = Ok (slashQuote (js "a bc" ++ [BACKSLASH])).
Proof.
  split; [reflexivity |].
  exact (proj1 C4_unpaired_trailing_backslash
               (js "a bc" ++ [BACKSLASH]) eq_refl).
Defined.

(** C5: when the braces that no backslash protects are unbalanced (a close
    brace met at depth zero, or a depth other than zero at the end) the
    string is backslash-escaped in full; in particular every one of the five
    braces of three opens followed by two closes gets a backslash. *)
Theorem C5_unbalanced_braces :
  (forall s : jsstring,
      unbalancedBraces s = true -> tclQuote s = Ok (slashQuote s))
  /\ tclQuote (js "{{{}}")
     = Ok [BACKSLASH; LBRACE; BACKSLASH; LBRACE; BACKSLASH; LBRACE;
           BACKSLASH; RBRACE; BACKSLASH; RBRACE].
Proof.
  split; [| reflexivity].
  intros s Hunb. rewrite tclQuote_quoteElement. f_equal.
  apply quoteElement_slash.
  - intros ->. discriminate.
  - apply scanFrom_unbalanced; [reflexivity |].
    unfold unbalancedBraces in Hunb. simpl braceCount.
    intros E. rewrite E in Hunb. discriminate.
Qed.

Lemma C5_unbalanced_braces_witness :
  unbalancedBraces (js "{{}}}") = true
  /\ tclQuote (js "{{}}}") = Ok (slashQuote (js "{{}}}"))
  /\ slashQuote (js "{{}}}")
     = [BACKSLASH; LBRACE; BACKSLASH; LBRACE; BACKSLASH; RBRACE;
        BACKSLASH; RBRACE; BACKSLASH; RBRACE].
Proof.
  split; [reflexivity | split; [| reflexivity]].
  exact (proj1 C5_unbalanced_braces (js "{{}}}") eq_refl).
Defined.

(** C3: quoting the string of the 128 ASCII code points 0 to 127 gives the
    reference string of the unit test, which is the escape table applied
    code point by code point: named or two-digit hexadecimal escapes for
    the control characters, a backslash before space, double quote,
    backslash and both braces, every other character as it is. *)
Theorem C3_all_ascii :
  allAsciiSource = asciiCodePoints
  /\ tclQuote allAsciiSource = Ok allAsciiExpected
  /\ allAsciiExpected = flat_map referenceEscape asciiCodePoints
  /\ (forall (number : Type) (Number_toString : number -> jsstring),
         tclList Number_toString [TString allAsciiSource]
         = Ok allAsciiExpected).
Proof.
  split; [reflexivity |].
  split; [vm_compute; reflexivity |].
  split; [vm_compute; reflexivity |].
  intros number Number_toString. vm_compute. reflexivity.
Qed.

(** C9: [tclQuote] returns a string for every input and the start-up check
    of the module passes; a surrogate half standing alone changes none of
    the locals of the classification loop, is copied as it is by the
    escaping pass, and a non-empty string made of plain characters and
    surrogate halves, paired or not, is returned unchanged. *)
Theorem C9_total_lone_surrogates :
  (forall s : jsstring, exists r, tclQuote s = Ok r)
  /\ moduleInit = Ok tt
  /\ (forall u : codeUnit, isSurrogate u = true ->
        Array_from [u] = [[u]]
        /\ (forall asArray inputLength i st,
               nth_error asArray i = Some [u] ->
               loopBody asArray inputLength i st = Ok (st, i))
        /\ slashQuoteCharacter [u] = [u]
        /\ isPlain u = true)
  /\ (forall s : jsstring,
        s <> [] -> forallb isPlain s = true -> tclQuote s = Ok s)
  /\ tclQuote [0xD800; SPACE; 0xDC00]%N
     = Ok [LBRACE; 0xD800; SPACE; 0xDC00; RBRACE]%N
  /\ tclQuote [0xDC00; LBRACE; 0xD800]%N
     = Ok [0xDC00; BACKSLASH; LBRACE; 0xD800]%N.
Proof.
  split; [intros s; eexists; apply tclQuote_quoteElement |].
  split; [reflexivity |].
  split.
  { intros u Hu. pose proof (surrogate_isPlain u Hu) as Hp.
    split; [reflexivity |]. split; [| split; [| assumption]].
    - intros asArray inputLength i st E.
      apply loopBody_plain with (u := u); assumption.
    - apply slashQuoteCharacter_surrogate; assumption. }
  split.
  { intros s Hne Hall. rewrite tclQuote_quoteElement.
    rewrite quoteElement_plain by assumption. reflexivity. }
  split; reflexivity.
Qed.

(** * Properties of the list encoder *)

(** C2, as stated, fails: for the nested list that holds the single value
    true (or the single number 1) the recursive encoding is the character 1
    and the element emitted is that same character, neither wrapped in
    braces nor escaped; a list nested once more is encoded like the list
    itself. *)
Lemma C2_singleton_list_left_bare :
  tclList integer_toString [TBoolean true] = Ok (js "1")
  /\ encodeTclListElement integer_toString (TIterable [TBoolean true])
     = Ok (js "1")
  /\ visiblyQuoted (js "1") (js "1") = false
  /\ tclList integer_toString [TNumber 1%Z] = Ok (js "1")
  /\ encodeTclListElement integer_toString (TIterable [TNumber 1%Z])
     = Ok (js "1")
  /\ tclList integer_toString [TIterable [TNumber 1%Z]]
     = tclList integer_toString [TNumber 1%Z].
Proof. repeat split; reflexivity. Qed.

(** C8: [tclList] returns the element strings of its values (text through
    the element quoter, a number through its default conversion, true as 1,
    false as 0, a nested sequence through the recursive encoding and the
    element quoter) joined with single spaces, nothing before the first and
    nothing after the last; the empty sequence gives the empty string.  The
    default conversion of a number is taken never to be the empty string, as
    is the case for JavaScript numbers. *)
Theorem C8_tclList_joins_elements (number : Type)
    (Number_toString : number -> jsstring)
    (Number_toString_nonempty : forall n, Number_toString n <> [])
    (values : list (TclListable number)) :
  tclList Number_toString values
  = Ok (join [SPACE] (List.map (elementString_spec Number_toString) values))
  /\ mapM (encodeTclListElement Number_toString) values
     = Ok (List.map (elementString_spec Number_toString) values)
  /\ tclList Number_toString [] = Ok [].
Proof.
  split; [| split; [| reflexivity]].
  - apply tclList_encodeList_spec; assumption.
  - apply mapM_pointwise, Forall_forall. intros v _.
    apply encode_elementString_spec; assumption.
Qed.

Lemma C8_tclList_joins_elements_witness :
  tclList integer_toString
    [TIterable
       [TIterable [];
        TIterable [TNumber 1%Z; TNumber 2%Z; TString (js "three");
                   TIterable [TBoolean true; TBoolean false]]]]
  = Ok (js "{{} {1 2 three {1 0}}}").
Proof.
  exact (proj1 (C8_tclList_joins_elements Z integer_toString
                  integer_toString_nonempty
                  [TIterable
                     [TIterable [];
                      TIterable [TNumber 1%Z; TNumber 2%Z;
                                 TString (js "three");
                                 TIterable [TBoolean true;
                                            TBoolean false]]]])).
Defined.

(** C10: the element string of every value is non-empty (the default
    conversion of a number never being the empty string, as is the case for
    JavaScript numbers); hence the loop of [tclList], which adds a space only
    when its result so far is non-empty, returns the element strings joined
    by single spaces, one per value. *)
Theorem C10_element_strings_nonempty (number : Type)
    (Number_toString : number -> jsstring)
    (Number_toString_nonempty : forall n, Number_toString n <> []) :
  (forall v : TclListable number,
      exists e, encodeTclListElement Number_toString v = Ok e /\ e <> [])
  /\ (forall values : list (TclListable number),
        exists es,
          mapM (encodeTclListElement Number_toString) values = Ok es
          /\ Forall (fun e => e <> []) es
          /\ length es = length values
          /\ tclList Number_toString values = Ok (join [SPACE] es)).
Proof.
  split.
  - intros v. apply encode_total_nonempty; assumption.
  - intros values. apply tclList_join; assumption.
Qed.

Lemma C10_element_strings_nonempty_witness :
  (exists e,
      encodeTclListElement integer_toString (TNumber (-12)%Z) = Ok e
      /\ e <> [])
  /\ (exists es,
        mapM (encodeTclListElement integer_toString)
          [TString []; TNumber (-12)%Z; TIterable []] = Ok es
        /\ Forall (fun e => e <> []) es
        /\ length es = 3
        /\ tclList integer_toString
             [TString []; TNumber (-12)%Z; TIterable []]
           = Ok (join [SPACE] es)).
Proof.
  split.
  - exact (proj1 (C10_element_strings_nonempty Z integer_toString
                    integer_toString_nonempty) (TNumber (-12)%Z)).
  - exact (proj2 (C10_element_strings_nonempty Z integer_toString
                    integer_toString_nonempty)
                 [TString []; TNumber (-12)%Z; TIterable []]).
Defined.

(** * Further properties of the element quoter *)

(** ** One code unit at a time *)

Lemma small_unit_check (check : codeUnit -> bool) :
  forallb (fun n => check (N.of_nat n)) (seq 0 128) = true ->
  forall u, (u < 128)%N -> check u = true.
Proof.
  intros Hall u Hu.
  rewrite forallb_forall in Hall.
  rewrite <- (N2Nat.id u). apply Hall. apply in_seq. lia.
Qed.

Lemma isPlain_large (u : codeUnit) : (128 <= u)%N -> isPlain u = true.
Proof.
  intros Hu.
  unfold isPlain, isControl, isBrace, SPACE, DQUOTE, BACKSLASH, LBRACE,
    RBRACE.
  settle_comparisons. reflexivity.
Qed.

Lemma escapeShape_all (u : codeUnit) : escapeShape u = true.
Proof.
  destruct (N.lt_ge_cases u 128) as [Hu | Hu].
  - revert u Hu. apply small_unit_check. vm_compute. reflexivity.
  - unfold escapeShape. rewrite slashQuoteCharacter_large by assumption.
    rewrite N.eqb_refl, isPlain_large by assumption. reflexivity.
Qed.

Lemma slashQuoteCharacter_cases (u : codeUnit) :
  escapeCase u (slashQuoteCharacter [u]).
Proof.
  pose proof (escapeShape_all u) as H. unfold escapeShape in H.
  destruct (slashQuoteCharacter [u]) as [|a [|x [|h1 [|h2 [|? ?]]]]];
    try discriminate.
  - apply andb_true_iff in H as [Ha Hp]. apply N.eqb_eq in Ha. subst a.
    constructor. assumption.
  - repeat (apply andb_true_iff in H as [H ?]).
    apply N.eqb_eq in H. subst a.
    match goal with Hx : (escapedUnit x =? u)%N = true |- _ =>
      apply N.eqb_eq in Hx end.
    constructor; try assumption.
    + intros ->. discriminate.
    + apply negb_true_iff. assumption.
    + apply negb_true_iff. assumption.
  - repeat (apply andb_true_iff in H as [H ?]).
    apply N.eqb_eq in H. subst a.
    match goal with Hx : (x =? 120)%N = true |- _ =>
      apply N.eqb_eq in Hx; subst x end.
    match goal with Hx : (_ =? u)%N = true |- _ =>
      apply N.eqb_eq in Hx end.
    constructor; assumption.
Qed.

Lemma strictEq_pair_single (u v x : codeUnit) : strictEq [u; v] [x] = false.
Proof. simpl. apply andb_false_r. Qed.

Lemma slashQuoteCharacter_pair (u v : codeUnit) :
  isHighSurrogate u = true -> slashQuoteCharacter [u; v] = [u; v].
Proof.
  intros Hu. unfold slashQuoteCharacter, isUnprintableAscii.
  rewrite !strictEq_pair_single. simpl.
  unit_cases. settle_comparisons. reflexivity.
Qed.

(** The escaping pass gives the same string whether it walks the string by
    code points or by code units. *)
Lemma slashQuote_units (s : jsstring) :
  slashQuote s = flat_map (fun u => slashQuoteCharacter [u]) s.
Proof.
  rewrite slashQuote_flat_map.
  induction s as [| u v rest Hu Hv E IH | u rest E IH] using codePoint_ind.
  - reflexivity.
  - rewrite E. simpl. rewrite IH.
    rewrite slashQuoteCharacter_pair by assumption.
    rewrite !slashQuoteCharacter_surrogate;
      [reflexivity | | ]; unfold isSurrogate.
    + rewrite Hv. apply orb_true_r.
    + rewrite Hu. reflexivity.
  - rewrite E. simpl. rewrite IH. reflexivity.
Qed.

Lemma scanFrom_skip_plain u chars st :
  requireSlashQuote st = false -> isPlain u = true ->
  scanFrom ([u] :: chars) st = scanFrom chars st.
Proof.
  intros H Hu. rewrite scanFrom_cons, classify_plain, H by assumption.
  reflexivity.
Qed.

(** The classification loop reaches the same result whether the string is
    split into code points or into single code units. *)
Lemma scanFrom_units_bounded (n : nat) : forall s st,
  length s <= n ->
  requireSlashQuote st = false ->
  scanFrom (Array_from s) st = scanFrom (singletons s) st.
Proof.
  induction n as [|n IH]; intros s st Hlen Hst.
  - destruct s; [reflexivity | simpl in Hlen; lia].
  - destruct s as [|u [|v rest]]; [reflexivity | reflexivity |].
    simpl in Hlen.
    destruct (isHighSurrogate u && isLowSurrogate v) eqn:Epair.
    + apply andb_true_iff in Epair as [Hu Hv].
      assert (E : Array_from (u :: v :: rest) = [u; v] :: Array_from rest)
        by (simpl; rewrite Hu, Hv; reflexivity).
      rewrite E, scanFrom_skip_pair by assumption.
      change (singletons (u :: v :: rest))
        with ([u] :: [v] :: singletons rest).
      rewrite !scanFrom_skip_plain; try assumption;
        try (apply surrogate_isPlain; unfold isSurrogate).
      * apply IH; [lia | assumption].
      * rewrite Hv. apply orb_true_r.
      * rewrite Hu. reflexivity.
    + assert (E : Array_from (u :: v :: rest)
                  = [u] :: Array_from (v :: rest))
        by (simpl; simpl in Epair; rewrite Epair; reflexivity).
      rewrite E.
      change (singletons (u :: v :: rest))
        with ([u] :: singletons (v :: rest)).
      rewrite !scanFrom_cons.
      assert (Hl : match Array_from (v :: rest) with
                   | [] => true | _ => false end = false).
      { destruct (Array_from (v :: rest)) eqn:Ea; [| reflexivity].
        apply Array_from_nil_iff in Ea. discriminate. }
      rewrite Hl. change (singletons (v :: rest))
        with ([v] :: singletons rest). cbv iota.
      destruct (classify [u] false st) as [st' skip].
      destruct (requireSlashQuote st') eqn:Hs; [reflexivity |].
      destruct skip.
      * destruct rest as [|w rest2]; [reflexivity |].
        destruct (isHighSurrogate v && isLowSurrogate w) eqn:Epair2.
        -- apply andb_true_iff in Epair2 as [Hv Hw].
           assert (E2 : Array_from (v :: w :: rest2)
                        = [v; w] :: Array_from rest2)
             by (simpl; rewrite Hv, Hw; reflexivity).
           rewrite E2.
           change (singletons (w :: rest2)) with ([w] :: singletons rest2).
           rewrite scanFrom_skip_plain; try assumption.
           ++ apply IH; [simpl in *; lia | assumption].
           ++ apply surrogate_isPlain. unfold isSurrogate.
              rewrite Hw. apply orb_true_r.
        -- assert (E2 : Array_from (v :: w :: rest2)
                        = [v] :: Array_from (w :: rest2))
             by (simpl; simpl in Epair2; rewrite Epair2; reflexivity).
           rewrite E2. apply IH; [simpl in *; lia | assumption].
      * apply IH; [simpl; lia | assumption].
Qed.

Lemma scanFrom_units (s : jsstring) (st : scanState) :
  requireSlashQuote st = false ->
  scanFrom (Array_from s) st = scanFrom (singletons s) st.
Proof. apply (scanFrom_units_bounded (length s)). apply le_n. Qed.

(** ** How the classification loop composes *)

Lemma scanState_eta st :
  st = mkScan (requireSlashQuote st) (requireBraceQuote st) (braceCount st).
Proof. destruct st; reflexivity. Qed.

Lemma singletons_cons u r : singletons (u :: r) = [u] :: singletons r.
Proof. reflexivity. Qed.

Lemma singletons_app a b : singletons (a ++ b) = singletons a ++ singletons b.
Proof. apply map_app. Qed.

Lemma scanFrom_backslash c chars st :
  requireSlashQuote st = false ->
  scanFrom ([BACKSLASH] :: c :: chars) st = scanFrom chars (setBrace st).
Proof.
  intros Hst. rewrite scanFrom_cons, classify_backslash.
  cbn [requireSlashQuote setBrace]. rewrite Hst. reflexivity.
Qed.

Lemma classify_last_irrelevant c l1 l2 st :
  isBackslashCharacter c = false -> classify c l1 st = classify c l2 st.
Proof.
  unfold isBackslashCharacter, classify. intros ->. reflexivity.
Qed.

Lemma classify_backslash_last c st :
  isBackslashCharacter c = true ->
  requireSlashQuote (fst (classify c true st)) = true.
Proof.
  intros Hc. apply strictEq_spec in Hc. subst c. reflexivity.
Qed.

Lemma scanFrom_app (a : list jsstring) : forall st t,
  requireSlashQuote st = false ->
  requireSlashQuote (scanFrom a st) = false ->
  scanFrom (a ++ t) st = scanFrom t (scanFrom a st).
Proof.
  induction a as [| c rest IH1 IH2] using list_skip_ind; intros st t Hst Hend.
  - reflexivity.
  - destruct t as [|t0 t'].
    { rewrite app_nil_r. reflexivity. }
    change ((c :: rest) ++ t0 :: t') with (c :: (rest ++ t0 :: t')).
    rewrite scanFrom_cons. rewrite scanFrom_cons in Hend.
    rewrite (scanFrom_cons c rest).
    destruct rest as [|d rest'].
    + simpl app.
      destruct (isBackslashCharacter c) eqn:Hc.
      * exfalso. pose proof (classify_backslash_last c st Hc) as Hs.
        destruct (classify c true st) as [st' skip]. simpl in Hs.
        rewrite Hs in Hend. congruence.
      * rewrite (classify_last_irrelevant c false true st Hc).
        pose proof (classify_other_no_skip c true st Hc) as Hskip.
        destruct (classify c true st) as [st' skip]. simpl in Hskip.
        subst skip.
        destruct (requireSlashQuote st') eqn:Hs; [congruence |].
        reflexivity.
    + change ((d :: rest') ++ t0 :: t') with (d :: (rest' ++ t0 :: t')).
      destruct (classify c false st) as [st' skip].
      destruct (requireSlashQuote st') eqn:Hs; [congruence |].
      destruct skip.
      * apply (IH2 d rest' eq_refl); assumption.
      * apply IH1; assumption.
Qed.

Lemma classify_lift c l st st' skip k b :
  classify c l st = (st', skip) ->
  requireSlashQuote st' = false ->
  classify c l (lift k b st) = (lift k b st', skip).
Proof.
  unfold classify. cbn [requireSlashQuote requireBraceQuote braceCount lift].
  repeat match goal with
         | |- context [if ?x then _ else _] => destruct x
         end;
    try (destruct (braceCount st) as [|n] eqn:Hn);
    intros E Hs; inversion E; subst; clear E;
    try discriminate;
    unfold lift, setBrace;
    cbn [requireSlashQuote requireBraceQuote braceCount];
    try reflexivity.
  all: f_equal; f_equal; lia.
Qed.

Lemma scanFrom_lift (a : list jsstring) : forall st k b,
  requireSlashQuote st = false ->
  requireSlashQuote (scanFrom a st) = false ->
  scanFrom a (lift k b st) = lift k b (scanFrom a st).
Proof.
  induction a as [| c rest IH1 IH2] using list_skip_ind;
    intros st k b Hst Hend.
  - reflexivity.
  - rewrite scanFrom_cons in Hend. rewrite !scanFrom_cons.
    destruct (classify c (match rest with [] => true | _ => false end) st)
      as [st' skip] eqn:Ec.
    destruct (requireSlashQuote st') eqn:Hs; [congruence |].
    rewrite (classify_lift c _ st st' skip k b Ec Hs).
    cbn [requireSlashQuote lift]. rewrite Hs.
    destruct skip.
    + destruct rest as [|d rest']; [reflexivity |].
      apply (IH2 d rest' eq_refl); assumption.
    + apply IH1; assumption.
Qed.

(** The states in which the loop may stop without asking for backslashes. *)
Lemma finalSlash_false_iff st :
  finalSlash st = false
  <-> requireSlashQuote st = false /\ braceCount st = 0.
Proof.
  unfold finalSlash. destruct (braceCount st) as [|n]; simpl.
  - split; [auto | tauto].
  - split; [discriminate | intros [_ H]; discriminate].
Qed.

Lemma selfContained_iff r :
  selfContained r = true
  <-> requireSlashQuote (scanFrom (singletons r) scanStart) = false
      /\ braceCount (scanFrom (singletons r) scanStart) = 0.
Proof.
  unfold selfContained. rewrite negb_true_iff, finalSlash_false_iff.
  rewrite scanFrom_units by reflexivity. tauto.
Qed.

Lemma scanFrom_plain_units (s : jsstring) : forall st tail,
  requireSlashQuote st = false ->
  forallb isPlain s = true ->
  scanFrom (singletons s ++ tail) st = scanFrom tail st.
Proof.
  induction s as [|u s IH]; intros st tail Hst Hall; [reflexivity |].
  simpl in Hall. apply andb_true_iff in Hall as [Hu Hall].
  change (singletons (u :: s) ++ tail) with ([u] :: (singletons s ++ tail)).
  rewrite scanFrom_skip_plain by assumption.
  apply IH; assumption.
Qed.

Lemma isControl_not_isPlain u : isControl u = true -> isPlain u = false.
Proof. unfold isPlain. intros ->. reflexivity. Qed.

(** The loop over a backslash-escaped string: no backslash is asked for, the
    brace count is left as it was. *)
Lemma scanFrom_escaped (s : jsstring) : forall st tail,
  requireSlashQuote st = false ->
  scanFrom
    (singletons (flat_map (fun u => slashQuoteCharacter [u]) s) ++ tail) st
  = scanFrom tail
      (mkScan false
         (requireBraceQuote st || existsb (fun u => negb (isPlain u)) s)
         (braceCount st)).
Proof.
  induction s as [|u s IH]; intros st tail Hst.
  - simpl. rewrite orb_false_r, <- Hst, <- scanState_eta. reflexivity.
  - simpl flat_map. simpl existsb. rewrite singletons_app, <- app_assoc.
    destruct (slashQuoteCharacter_cases u)
      as [Hp | x Hx Hcx Hdec Hnp | h1 h2 Hh1 Hh2 Hdec Hc];
      rewrite !singletons_cons; change (singletons []) with (@nil jsstring);
      cbn [app].
    + rewrite scanFrom_skip_plain by assumption.
      rewrite IH by assumption. rewrite Hp. reflexivity.
    + rewrite scanFrom_backslash by assumption.
      rewrite IH by assumption. rewrite Hnp.
      cbn [requireBraceQuote braceCount setBrace negb orb].
      rewrite orb_true_r. reflexivity.
    + rewrite scanFrom_backslash by assumption.
      rewrite !scanFrom_skip_plain by first [exact Hst | assumption].
      rewrite IH by exact Hst.
      rewrite (isControl_not_isPlain u Hc).
      cbn [requireBraceQuote braceCount setBrace negb orb].
      rewrite orb_true_r. reflexivity.
Qed.

Lemma selfContained_slashQuote (s : jsstring) :
  selfContained (slashQuote s) = true.
Proof.
  apply selfContained_iff. rewrite slashQuote_units.
  rewrite <- (app_nil_r (singletons _)).
  rewrite scanFrom_escaped by reflexivity. split; reflexivity.
Qed.

Lemma selfContained_braced (s : jsstring) :
  selfContained s = true -> selfContained (braced s) = true.
Proof.
  intros Hs. apply selfContained_iff in Hs as [Hslash Hcount].
  apply selfContained_iff. unfold braced.
  change (singletons ([LBRACE] ++ s ++ [RBRACE]))
    with ([LBRACE] :: singletons (s ++ [RBRACE])).
  rewrite singletons_app.
  rewrite scanFrom_cons.
  replace (match singletons s ++ singletons [RBRACE] with
           | [] => true | _ => false end) with false
    by (destruct (singletons s); reflexivity).
  change (classify [LBRACE] false scanStart)
    with (lift 1 true scanStart, false).
  cbn [requireSlashQuote lift scanStart].
  assert (Hl : scanFrom (singletons s) (lift 1 true scanStart)
               = lift 1 true (scanFrom (singletons s) scanStart))
    by (apply scanFrom_lift; [reflexivity | assumption]).
  rewrite scanFrom_app; [| reflexivity | rewrite Hl; assumption].
  rewrite Hl.
  destruct (scanFrom (singletons s) scanStart) as [sl br n].
  simpl in Hslash, Hcount. subst sl n. split; reflexivity.
Qed.

(** What [tclQuote] returns never needs backslashes when quoted again. *)
Lemma selfContained_quoteElement (s : jsstring) :
  selfContained (quoteElement s) = true.
Proof.
  unfold quoteElement. rewrite strictEq_nil.
  destruct s as [|u s']; [reflexivity |]. cbv zeta.
  destruct (finalSlash (scanFrom (Array_from (u :: s')) scanStart)) eqn:Hf.
  - apply selfContained_slashQuote.
  - assert (Hs : selfContained (u :: s') = true)
      by (unfold selfContained; rewrite Hf; reflexivity).
    destruct (requireBraceQuote _); [| assumption].
    apply (selfContained_braced (u :: s')). assumption.
Qed.

Lemma quoteElement_selfContained (r : jsstring) :
  r <> [] -> selfContained r = true ->
  quoteElement r = r \/ quoteElement r = braced r.
Proof.
  intros Hne Hs. unfold quoteElement. rewrite strictEq_nil.
  destruct r as [|u r']; [contradiction |]. cbv zeta.
  unfold selfContained in Hs. apply negb_true_iff in Hs. rewrite Hs.
  destruct (requireBraceQuote _); [right | left]; reflexivity.
Qed.

(** ** The escaped form *)

Lemma isPlain_not_backslash u : isPlain u = true -> (u =? BACKSLASH)%N = false.
Proof.
  unfold isPlain.
  destruct (isControl u), (u =? SPACE)%N, (u =? DQUOTE)%N,
    (u =? BACKSLASH)%N; simpl; intros H; try discriminate; reflexivity.
Qed.

Lemma isPlain_not_isControl u : isPlain u = true -> isControl u = false.
Proof.
  unfold isPlain. destruct (isControl u); simpl; intros H;
    [discriminate | reflexivity].
Qed.

Lemma slashQuoteCharacter_length (u : codeUnit) :
  1 <= length (slashQuoteCharacter [u]) <= 4.
Proof. destruct (slashQuoteCharacter_cases u); simpl; lia. Qed.

Lemma slashQuote_length (s : jsstring) :
  length s <= length (slashQuote s) <= 4 * length s.
Proof.
  rewrite slashQuote_units.
  induction s as [|u s IH]; simpl; [lia |].
  rewrite length_app. pose proof (slashQuoteCharacter_length u). lia.
Qed.

Lemma bareSpecialFree_slashQuote (s : jsstring) :
  bareSpecialFree (slashQuote s) = true.
Proof.
  rewrite slashQuote_units.
  induction s as [|u s IH]; [reflexivity |]. simpl flat_map.
  destruct (slashQuoteCharacter_cases u)
    as [Hp | x Hx Hcx Hdec Hnp | h1 h2 Hh1 Hh2 Hdec Hc]; simpl.
  - rewrite (isPlain_not_backslash u Hp), Hp. assumption.
  - assumption.
  - rewrite (isPlain_not_backslash h1 Hh1), Hh1.
    rewrite (isPlain_not_backslash h2 Hh2), Hh2. assumption.
Qed.

Lemma noControl_slashQuote (s : jsstring) :
  forallb (fun u => negb (isControl u)) (slashQuote s) = true.
Proof.
  rewrite slashQuote_units.
  induction s as [|u s IH]; [reflexivity |]. simpl flat_map.
  rewrite forallb_app, IH, andb_true_r.
  destruct (slashQuoteCharacter_cases u)
    as [Hp | x Hx Hcx Hdec Hnp | h1 h2 Hh1 Hh2 Hdec Hc]; simpl.
  - rewrite (isPlain_not_isControl u Hp). reflexivity.
  - rewrite Hcx. reflexivity.
  - rewrite (isPlain_not_isControl h1 Hh1), (isPlain_not_isControl h2 Hh2).
    reflexivity.
Qed.

Lemma unescape_slashQuoteCharacter (u : codeUnit) (r : jsstring) :
  unescape (slashQuoteCharacter [u] ++ r) = u :: unescape r.
Proof.
  destruct (slashQuoteCharacter_cases u)
    as [Hp | x Hx Hcx Hdec Hnp | h1 h2 Hh1 Hh2 Hdec Hc]; simpl.
  - rewrite (isPlain_not_backslash u Hp). reflexivity.
  - apply N.eqb_neq in Hx. rewrite Hx, Hdec. reflexivity.
  - rewrite Hdec. reflexivity.
Qed.

Lemma unescape_slashQuote (s : jsstring) : unescape (slashQuote s) = s.
Proof.
  rewrite slashQuote_units.
  induction s as [|u s IH]; [reflexivity |]. simpl flat_map.
  rewrite unescape_slashQuoteCharacter, IH. reflexivity.
Qed.

Lemma slashQuote_plain_fixed (s : jsstring) :
  forallb isPlain (slashQuote s) = true -> slashQuote s = s.
Proof.
  rewrite slashQuote_units.
  induction s as [|u s IH]; [reflexivity |]. simpl flat_map.
  rewrite forallb_app. intros H. apply andb_true_iff in H as [Hu Hs].
  rewrite (IH Hs).
  destruct (slashQuoteCharacter_cases u); simpl in Hu; try discriminate.
  reflexivity.
Qed.

Lemma slashQuote_head (s : jsstring) :
  s <> [] ->
  exists a rest, slashQuote s = a :: rest /\ (a =? LBRACE)%N = false.
Proof.
  intros Hne. rewrite slashQuote_units.
  destruct s as [|u s]; [contradiction |]. simpl flat_map.
  destruct (slashQuoteCharacter_cases u)
    as [Hp | x Hx Hcx Hdec Hnp | h1 h2 Hh1 Hh2 Hdec Hc]; simpl;
    eexists; eexists; (split; [reflexivity |]); try reflexivity.
  unfold isPlain, isBrace in Hp.
  destruct (u =? LBRACE)%N; [| reflexivity].
  rewrite !orb_true_r in Hp. discriminate.
Qed.

(** ** Strings the loop passes without any request *)

Lemma classify_brace_kept c l st :
  requireBraceQuote st = true ->
  requireBraceQuote (fst (classify c l st)) = true.
Proof.
  intros H. unfold classify.
  repeat match goal with
         | |- context [if ?x then _ else _] => destruct x
         end;
    try (destruct (braceCount st)); simpl; auto.
Qed.

Lemma scanFrom_brace_kept (chars : list jsstring) : forall st,
  requireBraceQuote st = true ->
  requireBraceQuote (scanFrom chars st) = true.
Proof.
  induction chars as [| c rest IH1 IH2] using list_skip_ind; intros st Hst.
  - assumption.
  - rewrite scanFrom_cons.
    pose proof (classify_brace_kept c
                  (match rest with [] => true | _ => false end) st Hst)
      as Hb.
    destruct (classify c _ st) as [st' skip]. simpl in Hb.
    destruct (requireSlashQuote st'); [assumption |].
    destruct skip.
    + destruct rest as [|d rest']; [assumption |].
      apply (IH2 d rest' eq_refl). assumption.
    + apply IH1. assumption.
Qed.

Lemma classify_not_plain u l st :
  isPlain u = false ->
  requireSlashQuote (fst (classify [u] l st)) = true
  \/ requireBraceQuote (fst (classify [u] l st)) = true.
Proof.
  intros Hu. rewrite classify_unit. unfold isPlain, isBrace in Hu.
  apply negb_false_iff in Hu.
  destruct (isControl u); [left; reflexivity |].
  destruct ((u =? SPACE) || (u =? DQUOTE))%N eqn:Hsq; [right; reflexivity |].
  apply orb_false_iff in Hsq as [Hs Hq]. rewrite Hs, Hq in Hu. simpl in Hu.
  destruct (u =? BACKSLASH)%N.
  { destruct l; [left | right]; reflexivity. }
  destruct (u =? LBRACE)%N; [right; reflexivity |].
  destruct (u =? RBRACE)%N; [| discriminate].
  destruct (braceCount st); [left | right]; reflexivity.
Qed.

Lemma scanFrom_no_request (s : jsstring) : forall st,
  requireSlashQuote st = false ->
  requireSlashQuote (scanFrom (singletons s) st) = false ->
  requireBraceQuote (scanFrom (singletons s) st) = false ->
  forallb isPlain s = true.
Proof.
  induction s as [|u s IH]; intros st Hst Hslash Hbrace; [reflexivity |].
  simpl. destruct (isPlain u) eqn:Hu.
  - simpl. change (singletons (u :: s)) with ([u] :: singletons s) in *.
    rewrite scanFrom_skip_plain in Hslash, Hbrace by assumption.
    apply (IH st); assumption.
  - exfalso.
    change (singletons (u :: s)) with ([u] :: singletons s) in *.
    rewrite scanFrom_cons in Hslash, Hbrace.
    pose proof (classify_not_plain u
                  (match singletons s with [] => true | _ => false end)
                  st Hu) as Hreq.
    destruct (classify [u] _ st) as [st' skip]. simpl in Hreq.
    destruct (requireSlashQuote st') eqn:Hs; [congruence |].
    destruct Hreq as [Hreq | Hreq]; [discriminate |].
    destruct skip.
    + destruct (singletons s) as [|d rest']; [congruence |].
      rewrite scanFrom_brace_kept in Hbrace by assumption. discriminate.
    + rewrite scanFrom_brace_kept in Hbrace by assumption. discriminate.
Qed.

(** The three ways [tclQuote] builds its result. *)
Lemma quoteElement_modes (s : jsstring) :
  quoteElement s = braced s
  \/ (s <> [] /\ quoteElement s = slashQuote s)
  \/ (s <> [] /\ quoteElement s = s /\ forallb isPlain s = true).
Proof.
  unfold quoteElement. rewrite strictEq_nil.
  destruct s as [|u s']; [left; reflexivity |]. cbv zeta.
  destruct (finalSlash (scanFrom (Array_from (u :: s')) scanStart)) eqn:Hf.
  - right. left. split; [discriminate | reflexivity].
  - destruct (requireBraceQuote _) eqn:Hb; [left; reflexivity |].
    right. right. split; [discriminate |]. split; [reflexivity |].
    apply finalSlash_false_iff in Hf as [Hslash _].
    rewrite scanFrom_units in Hslash, Hb by reflexivity.
    apply (scanFrom_no_request (u :: s') scanStart);
      [reflexivity | assumption | assumption].
Qed.

Lemma braced_inj (s1 s2 : jsstring) : braced s1 = braced s2 -> s1 = s2.
Proof.
  unfold braced. intros H. inversion H as [H'].
  apply app_inv_tail in H'. assumption.
Qed.

Lemma quoteElement_inj (s1 s2 : jsstring) :
  quoteElement s1 = quoteElement s2 -> s1 = s2.
Proof.
  assert (Hbs : forall a b, b <> [] -> braced a <> slashQuote b).
  { intros a b Hb E. destruct (slashQuote_head b Hb) as (x & rest & Ex & Hx).
    rewrite Ex in E. inversion E; subst x. discriminate. }
  assert (Hbp : forall a b, forallb isPlain b = true -> braced a <> b).
  { intros a b Hb E. subst b. simpl in Hb. discriminate. }
  assert (Hsp : forall a b,
             forallb isPlain b = true -> slashQuote a = b -> a = b).
  { intros a b Hb E. subst b. symmetry. apply slashQuote_plain_fixed.
    assumption. }
  intros E.
  destruct (quoteElement_modes s1) as [H1 | [[N1 H1] | (N1 & H1 & P1)]];
    destruct (quoteElement_modes s2) as [H2 | [[N2 H2] | (N2 & H2 & P2)]];
    rewrite H1, H2 in E.
  - apply braced_inj. assumption.
  - exfalso. exact (Hbs _ _ N2 E).
  - exfalso. exact (Hbp _ _ P2 E).
  - exfalso. symmetry in E. exact (Hbs _ _ N1 E).
  - rewrite <- (unescape_slashQuote s1), E. apply unescape_slashQuote.
  - apply Hsp; assumption.
  - exfalso. symmetry in E. exact (Hbp _ _ P1 E).
  - symmetry. apply Hsp; [assumption | symmetry; assumption].
  - assumption.
Qed.

(** ** Control characters in the result *)

Lemma scanFrom_controls (r : jsstring) : forall st,
  requireSlashQuote st = false ->
  requireSlashQuote (scanFrom (singletons r) st) = false ->
  controlsProtected r = true.
Proof.
  induction r as [| u rest IH1 IH2] using list_skip_ind; intros st Hst Hend.
  - reflexivity.
  - rewrite singletons_cons, scanFrom_cons, classify_unit in Hend.
    simpl controlsProtected.
    destruct (isControl u) eqn:Hc.
    { simpl in Hend. discriminate. }
    destruct ((u =? SPACE) || (u =? DQUOTE))%N eqn:Hsq.
    { assert (Hb : (u =? BACKSLASH)%N = false)
        by (apply orb_true_iff in Hsq as [H | H]; unit_cases; subst;
            reflexivity).
      rewrite Hb. cbn [requireSlashQuote setBrace] in Hend.
      rewrite Hst in Hend. simpl. apply (IH1 (setBrace st)); assumption. }
    destruct (u =? BACKSLASH)%N.
    { destruct rest as [|d rest']; [reflexivity |].
      rewrite singletons_cons in Hend.
      cbn [requireSlashQuote setBrace] in Hend. rewrite Hst in Hend.
      apply (IH2 d rest' eq_refl (setBrace st)); assumption. }
    simpl.
    destruct (u =? LBRACE)%N.
    { cbn [requireSlashQuote] in Hend. rewrite Hst in Hend.
      eapply IH1; [| exact Hend]. reflexivity. }
    destruct (u =? RBRACE)%N.
    { destruct (braceCount st) as [|n].
      - simpl in Hend. discriminate.
      - cbn [requireSlashQuote] in Hend. rewrite Hst in Hend.
        eapply IH1; [| exact Hend]. reflexivity. }
    rewrite Hst in Hend. apply (IH1 st); assumption.
Qed.

Lemma controlsProtected_quoteElement (s : jsstring) :
  controlsProtected (quoteElement s) = true.
Proof.
  pose proof (selfContained_quoteElement s) as H.
  apply selfContained_iff in H as [H _].
  apply (scanFrom_controls _ scanStart); [reflexivity | assumption].
Qed.

(** ** Joined elements *)

Lemma selfContained_plain (s : jsstring) :
  forallb isPlain s = true -> selfContained s = true.
Proof.
  intros H. apply selfContained_iff.
  rewrite <- (app_nil_r (singletons s)).
  rewrite scanFrom_plain_units by (reflexivity || assumption).
  split; reflexivity.
Qed.

Lemma scanFrom_selfContained (b : jsstring) (st : scanState) :
  requireSlashQuote st = false -> braceCount st = 0 ->
  selfContained b = true ->
  requireSlashQuote (scanFrom (singletons b) st) = false
  /\ braceCount (scanFrom (singletons b) st) = 0.
Proof.
  intros Hs Hc Hb. apply selfContained_iff in Hb as [Hbs Hbc].
  assert (E : st = lift 0 (requireBraceQuote st) scanStart).
  { rewrite (scanState_eta st) at 1. rewrite Hs, Hc. reflexivity. }
  rewrite E, scanFrom_lift by (reflexivity || assumption).
  unfold lift. cbn [requireSlashQuote braceCount]. split; [assumption | lia].
Qed.

Lemma scanFrom_join (es : list jsstring) : forall st,
  Forall (fun e => selfContained e = true) es ->
  requireSlashQuote st = false -> braceCount st = 0 ->
  requireSlashQuote (scanFrom (singletons (join [SPACE] es)) st) = false
  /\ braceCount (scanFrom (singletons (join [SPACE] es)) st) = 0.
Proof.
  induction es as [|e es IH]; intros st Hall Hs Hc.
  - simpl. auto.
  - inversion Hall as [|? ? He Hes]; subst.
    destruct es as [|e' es'].
    + simpl join. apply scanFrom_selfContained; assumption.
    + rewrite join_cons2, singletons_app.
      destruct (scanFrom_selfContained e st Hs Hc He) as [Hs1 Hc1].
      rewrite scanFrom_app by assumption.
      change ([SPACE] ++ join [SPACE] (e' :: es'))
        with (SPACE :: join [SPACE] (e' :: es')).
      rewrite singletons_cons, scanFrom_cons.
      change (classify [SPACE] ?l ?st0) with (setBrace st0, false).
      cbn [requireSlashQuote setBrace]. rewrite Hs1.
      apply IH; assumption.
Qed.

Lemma selfContained_join (es : list jsstring) :
  Forall (fun e => selfContained e = true) es ->
  selfContained (join [SPACE] es) = true.
Proof.
  intros H. apply selfContained_iff. apply scanFrom_join;
    [assumption | reflexivity | reflexivity].
Qed.

Lemma join_app sep (xs ys : list jsstring) :
  xs <> [] -> ys <> [] ->
  join sep (xs ++ ys) = join sep xs ++ sep ++ join sep ys.
Proof.
  intros Hx Hy. induction xs as [|x xs IH]; [contradiction |].
  destruct xs as [|x' xs'].
  - simpl. destruct ys; [contradiction | reflexivity].
  - change ((x :: x' :: xs') ++ ys) with (x :: (x' :: xs') ++ ys).
    change ((x' :: xs') ++ ys) with (x' :: xs' ++ ys) at 1.
    rewrite join_cons2. change (x' :: xs' ++ ys) with ((x' :: xs') ++ ys).
    rewrite IH by discriminate.
    rewrite join_cons2, <- !app_assoc. reflexivity.
Qed.

Lemma mapM_app {A B} (f : A -> completion B) (xs ys : list A) bx by_ :
  mapM f xs = Ok bx -> mapM f ys = Ok by_ ->
  mapM f (xs ++ ys) = Ok (bx ++ by_).
Proof.
  revert bx. induction xs as [|x xs IH]; intros bx Hx Hy.
  - simpl in Hx. inversion Hx. assumption.
  - simpl in Hx |- *. destruct (f x) as [b|]; [| discriminate].
    simpl in Hx |- *. destruct (mapM f xs) as [bs|]; [| discriminate].
    simpl in Hx. inversion Hx. rewrite (IH bs eq_refl Hy). reflexivity.
Qed.

Lemma decimalDigits_plain fuel : forall n acc,
  forallb isPlain acc = true ->
  forallb isPlain (decimalDigits fuel n acc) = true.
Proof.
  assert (Hd : forall n, isPlain (48 + n mod 10)%N = true).
  { intros n. assert (Hm : (n mod 10 < 10)%N) by (apply N.mod_lt; lia).
    generalize dependent (n mod 10)%N. intros m Hm.
    unfold isPlain, isControl, isBrace, SPACE, DQUOTE, BACKSLASH, LBRACE,
      RBRACE.
    settle_comparisons. reflexivity. }
  induction fuel as [|fuel IH]; intros n acc Hacc; cbn [decimalDigits].
  - cbn [forallb]. rewrite Hd. assumption.
  - destruct (n / 10 =? 0)%N.
    + cbn [forallb]. rewrite Hd. assumption.
    + apply IH. cbn [forallb]. rewrite Hd. assumption.
Qed.

Lemma integer_toString_plain (z : Z) :
  forallb isPlain (integer_toString z) = true.
Proof.
  destruct z; simpl integer_toString.
  - reflexivity.
  - apply decimalDigits_plain. reflexivity.
  - change (js "-" ++ ?r) with (45%N :: r). simpl forallb.
    rewrite decimalDigits_plain by reflexivity. reflexivity.
Qed.

(** ** [initializedArray] *)

Lemma initializedArray_loop_spec {T} (remaining : nat) :
  forall (i : nat) (callback : nat -> T) (result : list T),
    initializedArray_loop remaining i callback result
    = result ++ List.map callback (seq i remaining).
Proof.
  induction remaining as [|remaining IH]; intros i callback result; simpl.
  - rewrite app_nil_r. reflexivity.
  - rewrite IH, <- app_assoc. reflexivity.
Qed.

(** ** Nested lists *)

Lemma mapM_Forall {A B} (f : A -> completion B) (P : B -> Prop)
    (l : list A) :
  Forall (fun a => exists b, f a = Ok b /\ P b) l ->
  exists bs, mapM f l = Ok bs /\ Forall P bs.
Proof.
  induction 1 as [|a l (b & Hb & Pb) _ (bs & Hbs & Pbs)].
  - exists []. split; [reflexivity | constructor].
  - exists (b :: bs). simpl. rewrite Hb. simpl. rewrite Hbs.
    split; [reflexivity | constructor; assumption].
Qed.

Section NestedLists.

Variable number : Type.
Variable Number_toString : number -> jsstring.
Hypothesis Number_toString_nonempty : forall n, Number_toString n <> [].
Hypothesis Number_toString_plain :
  forall n, forallb isPlain (Number_toString n) = true.

Lemma encode_selfContained (v : TclListable number) :
  exists e,
    encodeTclListElement Number_toString v = Ok e
    /\ (e <> [] /\ selfContained e = true).
Proof.
  induction v as [s | n | b | items IH] using TclListable_nested_ind.
  - exists (quoteElement s). split; [apply tclQuote_quoteElement |].
    split; [apply quoteElement_nonempty | apply selfContained_quoteElement].
  - exists (Number_toString n). split; [reflexivity |].
    split; [apply Number_toString_nonempty |].
    apply selfContained_plain, Number_toString_plain.
  - destruct b; eexists; (split; [reflexivity |]);
      (split; [discriminate | reflexivity]).
  - destruct (mapM_Forall _ _ items IH) as (es & Hes & Hall).
    rewrite encode_TIterable. unfold tclList.
    rewrite (tclList_forOf_join number Number_toString items es [] Hes)
      by (eapply Forall_impl; [| exact Hall]; simpl; tauto).
    simpl bind. rewrite tclQuote_quoteElement.
    eexists. split; [reflexivity |].
    split; [apply quoteElement_nonempty | apply selfContained_quoteElement].
Qed.

Lemma tclList_selfContained (items : list (TclListable number)) :
  exists r,
    tclList Number_toString items = Ok r /\ selfContained r = true.
Proof.
  destruct (mapM_Forall (encodeTclListElement Number_toString)
              (fun e => e <> [] /\ selfContained e = true) items)
    as (es & Hes & Hall).
  { apply Forall_forall. intros v _. apply encode_selfContained. }
  exists (join [SPACE] es). unfold tclList.
  rewrite (tclList_forOf_join number Number_toString items es [] Hes)
    by (eapply Forall_impl; [| exact Hall]; simpl; tauto).
  split; [reflexivity |].
  apply selfContained_join.
  eapply Forall_impl; [| exact Hall]. simpl. tauto.
Qed.

End NestedLists.

(** * Further properties: statements *)

(** X1: [tclQuote] never shortens a string and at most quadruples its
    length; the empty string alone becomes the two characters of an empty
    pair of braces. *)
Theorem X1_tclQuote_length (s : jsstring) :
  exists r,
    tclQuote s = Ok r
    /\ length s <= length r
    /\ length r <= Nat.max 2 (4 * length s).
Proof.
  exists (quoteElement s). split; [apply tclQuote_quoteElement |].
  destruct (quoteElement_modes s) as [H | [[_ H] | (_ & H & _)]];
    rewrite H.
  - unfold braced. rewrite !length_app. cbn [length].
    destruct s; cbn [length]; lia.
  - pose proof (slashQuote_length s). lia.
  - lia.
Qed.

(** X2: in the string the escaping pass builds there is no control
    character, every backslash is followed by one more character, and every
    character that does not follow such a backslash is plain: neither a
    space, a double quote, a backslash nor a brace. *)
Theorem X2_slashQuote_escaped_form (s : jsstring) :
  bareSpecialFree (slashQuote s) = true
  /\ forallb (fun u => negb (isControl u)) (slashQuote s) = true.
Proof.
  split; [apply bareSpecialFree_slashQuote | apply noControl_slashQuote].
Qed.

(** X3: both loops of [tclQuote] reach the same result when the string is
    walked one code unit at a time instead of one code point at a time, so
    the split of the string that the start-up check of the module insists
    on does not influence what [tclQuote] returns. *)
Theorem X3_code_units_suffice (s : jsstring) :
  scanLoop (length (singletons s)) (singletons s) (length (singletons s)) 0
           scanStart
  = scanLoop (length (Array_from s)) (Array_from s)
             (length (Array_from s)) 0 scanStart
  /\ fold_left
       (fun result character => result ++ slashQuoteCharacter character)
       (singletons s) []
     = slashQuote s.
Proof.
  split.
  - rewrite !scanLoop_scanFrom by (reflexivity || lia).
    simpl skipn. rewrite scanFrom_units by reflexivity. reflexivity.
  - rewrite slashQuote_units.
    rewrite (fold_left_append slashQuoteCharacter (singletons s) []).
    simpl. unfold singletons. rewrite flat_map_concat_map, map_map.
    rewrite <- flat_map_concat_map. reflexivity.
Qed.

(** X4: what [tclQuote] returns never needs backslashes when it is quoted
    again: quoting it a second time returns it unchanged or inside one pair
    of braces. *)
Theorem X4_quoting_twice (s : jsstring) :
  exists r,
    tclQuote s = Ok r
    /\ (tclQuote r = Ok r \/ tclQuote r = Ok (braced r)).
Proof.
  exists (quoteElement s). split; [apply tclQuote_quoteElement |].
  rewrite tclQuote_quoteElement.
  destruct (quoteElement_selfContained (quoteElement s))
    as [H | H]; [apply quoteElement_nonempty
                | apply selfContained_quoteElement | |];
    rewrite H; auto.
Qed.

(** X5: [tclQuote] is injective: two strings with the same result are the
    same string. *)
Theorem X5_tclQuote_injective (s1 s2 : jsstring) :
  tclQuote s1 = tclQuote s2 -> s1 = s2.
Proof.
  rewrite !tclQuote_quoteElement. intros H. inversion H.
  apply quoteElement_inj. assumption.
Qed.

Lemma X5_tclQuote_injective_witness :
  tclQuote (js "a b") = tclQuote ([97; 32] ++ js "b")%N
  /\ js "a b" = ([97; 32] ++ js "b")%N.
Proof.
  split; [reflexivity |].
  exact (X5_tclQuote_injective (js "a b") ([97; 32] ++ js "b")%N eq_refl).
Defined.

(** X6: in the result of [tclQuote] a control character can only stand
    right after a backslash that protects it; this does happen, because the
    character after a backslash is never looked at: a backslash followed by
    any character at all is returned as it is inside one pair of braces. *)
Theorem X6_control_characters :
  (forall s : jsstring,
      exists r, tclQuote s = Ok r /\ controlsProtected r = true)
  /\ (forall u : codeUnit,
         tclQuote [BACKSLASH; u] = Ok (braced [BACKSLASH; u])).
Proof.
  split.
  - intros s. exists (quoteElement s).
    split; [apply tclQuote_quoteElement
           | apply controlsProtected_quoteElement].
  - intros u. reflexivity.
Qed.

(** X10: [initializedArray(count, callback)] has [count] elements and its
    element at index [i] is [callback(i)]. *)
Theorem X10_initializedArray {T} (count : nat) (callback : nat -> T) :
  initializedArray count callback = List.map callback (seq 0 count)
  /\ length (initializedArray count callback) = count
  /\ (forall i, i < count ->
        nth_error (initializedArray count callback) i = Some (callback i)).
Proof.
  assert (E : initializedArray count callback
              = List.map callback (seq 0 count))
    by (unfold initializedArray;
        exact (initializedArray_loop_spec count 0 callback [])).
  rewrite E. split; [reflexivity |].
  split; [rewrite length_map, length_seq; reflexivity |].
  intros i Hi. rewrite nth_error_map, nth_error_seq.
  destruct (Nat.ltb_spec i count); [reflexivity | lia].
Qed.

(** ** Lists *)

(** X7: for numbers whose default conversion is never empty and holds plain
    characters only, as is the case for JavaScript numbers, the encoding of
    a list never needs backslashes when it is quoted as one element: a
    nested list is emitted as its own encoding, bare or inside one pair of
    braces, so every level of nesting costs two characters at most. *)
Theorem X7_nested_list_braced (number : Type)
    (Number_toString : number -> jsstring)
    (Number_toString_nonempty : forall n, Number_toString n <> [])
    (Number_toString_plain :
       forall n, forallb isPlain (Number_toString n) = true)
    (items : list (TclListable number)) :
  exists r,
    tclList Number_toString items = Ok r
    /\ (encodeTclListElement Number_toString (TIterable items) = Ok r
        \/ encodeTclListElement Number_toString (TIterable items)
           = Ok (braced r)).
Proof.
  destruct (tclList_selfContained number Number_toString
              Number_toString_nonempty Number_toString_plain items)
    as (r & Hr & Hs).
  exists r. split; [assumption |].
  rewrite encode_TIterable, Hr. simpl bind. rewrite tclQuote_quoteElement.
  destruct r as [|u r'].
  - right. reflexivity.
  - destruct (quoteElement_selfContained (u :: r')) as [H | H];
      [discriminate | assumption | |]; rewrite H; auto.
Qed.

Lemma X7_nested_list_braced_witness :
  exists r,
    tclList integer_toString
      [TString (js "{{{}}"); TNumber (-7)%Z; TIterable [TString []]] = Ok r
    /\ (encodeTclListElement integer_toString
          (TIterable
             [TString (js "{{{}}"); TNumber (-7)%Z; TIterable [TString []]])
        = Ok r
        \/ encodeTclListElement integer_toString
             (TIterable
                [TString (js "{{{}}"); TNumber (-7)%Z;
                 TIterable [TString []]])
           = Ok (braced r)).
Proof.
  exact (X7_nested_list_braced Z integer_toString integer_toString_nonempty
           integer_toString_plain
           [TString (js "{{{}}"); TNumber (-7)%Z; TIterable [TString []]]).
Defined.

(** X8: for numbers whose default conversion is never empty, the encoding
    of two non-empty lists put one after the other is the encoding of the
    first, one space, and the encoding of the second. *)
Theorem X8_tclList_app (number : Type)
    (Number_toString : number -> jsstring)
    (Number_toString_nonempty : forall n, Number_toString n <> [])
    (a b : list (TclListable number)) :
  a <> [] -> b <> [] ->
  exists ra rb,
    tclList Number_toString a = Ok ra
    /\ tclList Number_toString b = Ok rb
    /\ tclList Number_toString (a ++ b) = Ok (ra ++ [SPACE] ++ rb).
Proof.
  intros Ha Hb.
  destruct (tclList_join number Number_toString Number_toString_nonempty a)
    as (ea & Hea & Halla & Hlena & Hja).
  destruct (tclList_join number Number_toString Number_toString_nonempty b)
    as (eb & Heb & Hallb & Hlenb & Hjb).
  exists (join [SPACE] ea), (join [SPACE] eb).
  split; [assumption |]. split; [assumption |].
  unfold tclList.
  rewrite (tclList_forOf_join number Number_toString (a ++ b) (ea ++ eb) []
             (mapM_app _ a b ea eb Hea Heb))
    by (apply Forall_app; split; assumption).
  simpl app. rewrite join_app; [reflexivity | |].
  - intros ->. destruct a; [contradiction | discriminate].
  - intros ->. destruct b; [contradiction | discriminate].
Qed.

Lemma X8_tclList_app_witness :
  exists ra rb,
    tclList integer_toString [TString (js "a b"); TBoolean true] = Ok ra
    /\ tclList integer_toString [TNumber 12%Z] = Ok rb
    /\ tclList integer_toString
         ([TString (js "a b"); TBoolean true] ++ [TNumber 12%Z])
       = Ok (ra ++ [SPACE] ++ rb).
Proof.
  apply (X8_tclList_app Z integer_toString integer_toString_nonempty
           [TString (js "a b"); TBoolean true] [TNumber 12%Z]);
    discriminate.
Defined.

(** * [permutations] *)

Section PermutationsFacts.

Variable T : Type.

Lemma nth_error_cut (xs : list T) (i : nat) (x : T) :
  nth_error xs i = Some x ->
  xs = firstn i xs ++ x :: skipn (i + 1) xs.
Proof.
  rewrite Nat.add_1_r. revert i.
  induction xs as [|y xs IH]; intros [|i] H; simpl in *; try discriminate.
  - inversion H. reflexivity.
  - f_equal. apply IH. assumption.
Qed.

Lemma removeAt_length (xs : list T) (i : nat) (x : T) (m : nat) :
  nth_error xs i = Some x -> length xs = S m ->
  length (firstn i xs ++ skipn (i + 1) xs) = m.
Proof.
  intros H Hlen. pose proof (nth_error_cut xs i x H) as E.
  apply (f_equal (@length T)) in E.
  rewrite length_app in E. simpl in E. rewrite length_app. lia.
Qed.

Lemma removeAt_Permutation (xs : list T) (i : nat) (x : T) :
  nth_error xs i = Some x ->
  Permutation xs (x :: firstn i xs ++ skipn (i + 1) xs).
Proof.
  intros H. rewrite (nth_error_cut xs i x H) at 1.
  symmetry. apply Permutation_middle.
Qed.

Lemma removeAt_NoDup (xs : list T) (i : nat) (x : T) :
  nth_error xs i = Some x -> NoDup xs ->
  NoDup (firstn i xs ++ skipn (i + 1) xs).
Proof.
  intros H Hnd. rewrite (nth_error_cut xs i x H) in Hnd.
  apply NoDup_remove_1 in Hnd. assumption.
Qed.

Lemma NoDup_append (A : Type) (l l' : list A) :
  NoDup l -> NoDup l' -> (forall a, In a l -> ~ In a l') -> NoDup (l ++ l').
Proof.
  induction l as [|a l IH]; intros Hl Hl' Hd; [assumption |].
  inversion Hl as [|? ? Ha Hl0]; subst. simpl. constructor.
  - intros Hin. apply in_app_or in Hin as [Hin | Hin]; [contradiction |].
    exact (Hd a (or_introl eq_refl) Hin).
  - apply IH; [assumption | assumption |].
    intros b Hb. apply Hd. right. assumption.
Qed.

Variable recur : list T -> list T -> completion (list (list T)).
Variable m : nat.
Hypothesis recur_yieldsAll :
  forall xs prefix, length xs = m ->
    exists ys, recur xs prefix = Ok ys /\ yieldsAll xs prefix ys.

Lemma permutations_forIndex_spec (xs prefix : list T) :
  length xs = S m ->
  forall indices,
    Forall (fun i => i < S m) indices ->
    exists zs,
      permutations_forIndex recur xs prefix indices = Ok zs
      /\ length zs = length indices * fact m
      /\ (forall q,
            In q zs
            <-> exists i x p',
                In i indices /\ nth_error xs i = Some x
                /\ Permutation (firstn i xs ++ skipn (i + 1) xs) p'
                /\ q = prefix ++ x :: p')
      /\ (NoDup xs -> NoDup indices -> NoDup zs).
Proof.
  intros Hlen. induction indices as [|i later IH]; intros Hall.
  - exists []. split; [reflexivity |]. split; [reflexivity |]. split.
    + intros q. split; [intros [] | intros (i & x & p' & [] & _)].
    + intros _ _. constructor.
  - inversion Hall as [|? ? Hi Hlater]; subst.
    destruct (IH Hlater) as (more & Hmore & Hlenmore & Hin & Hnd).
    destruct (nth_error xs i) as [x|] eqn:Ex.
    2: { apply nth_error_None in Ex. lia. }
    destruct (recur_yieldsAll (firstn i xs ++ skipn (i + 1) xs)
                (prefix ++ [x]) (removeAt_length xs i x m Ex Hlen))
      as (ys & Hys & Hyl & Hyin & Hynd).
    rewrite (removeAt_length xs i x m Ex Hlen) in Hyl.
    exists (ys ++ more).
    split; [simpl; rewrite Ex, Hys; simpl; rewrite Hmore; reflexivity |].
    split; [rewrite length_app; simpl; lia |].
    split.
    + intros q. rewrite in_app_iff, Hyin, Hin. split.
      * intros [(p & Hp & ->) | (j & y & p' & Hj & Ey & Hp & ->)].
        -- exists i, x, p. rewrite <- app_assoc.
           repeat split; simpl; auto.
        -- exists j, y, p'. repeat split; simpl; auto.
      * intros (j & y & p' & [-> | Hj] & Ey & Hp & ->).
        -- left. exists p'. rewrite Ex in Ey. inversion Ey; subst y.
           rewrite <- app_assoc. split; [assumption | reflexivity].
        -- right. exists j, y, p'. repeat split; assumption.
    + intros Hxs Hidx. inversion Hidx as [|? ? Hnotin Hidx']; subst.
      apply NoDup_append.
      * apply Hynd. apply (removeAt_NoDup xs i x); assumption.
      * apply Hnd; assumption.
      * intros q Hq Hq'. apply Hyin in Hq as (p & _ & ->).
        apply Hin in Hq' as (j & y & p' & Hj & Ey & _ & E).
        rewrite <- app_assoc in E. apply app_inv_head in E.
        simpl in E. inversion E; subst y.
        apply Hnotin.
        rewrite (proj1 (NoDup_nth_error xs) Hxs i j); [assumption | |].
        -- apply nth_error_Some. rewrite Ex. discriminate.
        -- rewrite Ex, Ey. reflexivity.
Qed.

End PermutationsFacts.

Lemma permutations_fuel_spec (T : Type) (fuel : nat) :
  forall xs prefix : list T,
    length xs <= fuel ->
    exists ys,
      permutations_fuel fuel xs prefix = Ok ys /\ yieldsAll xs prefix ys.
Proof.
  assert (Hnil : forall prefix : list T, yieldsAll [] prefix [prefix]).
  { intros prefix. split; [reflexivity |]. split.
    - intros q. split.
      + intros [<- | []]. exists []. rewrite app_nil_r. auto.
      + intros (p & Hp & ->). apply Permutation_nil in Hp. subst p.
        rewrite app_nil_r. left. reflexivity.
    - intros _. repeat constructor. intros []. }
  induction fuel as [|fuel IH]; intros xs prefix Hlen.
  - destruct xs; [| simpl in Hlen; lia].
    exists [prefix]. split; [reflexivity | apply Hnil].
  - destruct xs as [|x0 xs0] eqn:Exs.
    { exists [prefix]. split; [reflexivity | apply Hnil]. }
    rewrite <- Exs in *.
    assert (Hn : length xs = S (length xs0)) by (rewrite Exs; reflexivity).
    assert (Hrec : forall ys pre : list T, length ys = length xs0 ->
              exists zs, permutations_fuel fuel ys pre = Ok zs
                         /\ yieldsAll ys pre zs).
    { intros ys pre Hy. apply IH. lia. }
    destruct (permutations_forIndex_spec T (permutations_fuel fuel)
                (length xs0) Hrec xs prefix Hn (seq 0 (length xs)))
      as (zs & Hzs & Hzl & Hzin & Hznd).
    { apply Forall_forall. intros i Hi. apply in_seq in Hi. lia. }
    exists zs. split.
    + cbn [permutations_fuel]. rewrite Hn at 1. simpl Nat.eqb. exact Hzs.
    + split; [| split].
      * rewrite Hzl, length_seq, Hn. reflexivity.
      * intros q. rewrite Hzin. split.
        -- intros (i & x & p' & Hi & Ex & Hp & ->).
           exists (x :: p'). split; [| reflexivity].
           rewrite (removeAt_Permutation T xs i x Ex).
           apply perm_skip. assumption.
        -- intros (p & Hp & ->).
           destruct p as [|x p'].
           { apply Permutation_sym, Permutation_nil in Hp. rewrite Hp in Hn.
             discriminate. }
           assert (Hx : In x xs)
             by (apply (Permutation_in x (Permutation_sym Hp)); left;
                 reflexivity).
           apply In_nth_error in Hx as (i & Ex).
           exists i, x, p'. split; [| split; [assumption | split]].
           ++ apply in_seq. split; [lia |]. simpl.
              apply nth_error_Some. rewrite Ex. discriminate.
           ++ apply (Permutation_cons_inv (a := x)).
              rewrite <- (removeAt_Permutation T xs i x Ex). assumption.
           ++ reflexivity.
      * intros Hnd. apply Hznd; [assumption | apply seq_NoDup].
Qed.

(** * [positiveModulo] and [rotateArray] *)

Lemma ToInt32_fixed_iff (z : Z) :
  ToInt32 z = z <-> (- 2 ^ 31 <= z < 2 ^ 31)%Z.
Proof.
  unfold ToInt32. split.
  - intros H. pose proof (Z.mod_pos_bound (z + 2 ^ 31) (2 ^ 32)) as B.
    lia.
  - intros H. rewrite Z.mod_small by lia. lia.
Qed.

Lemma positiveModulo_modulo (n d : Z) :
  d <> 0%Z -> positiveModulo n d = Some (n mod Z.abs d)%Z.
Proof.
  intros Hd. unfold positiveModulo.
  destruct (Z.eqb_spec d 0) as [|_]; [contradiction |]. cbv zeta.
  pose proof (Z.quot_rem' n d) as Hq.
  pose proof (Z.rem_bound_abs n d Hd) as Hb.
  destruct (Z.ltb_spec (Z.rem n d) 0) as [Hneg | Hpos]; f_equal.
  - destruct (Z.lt_ge_cases d 0) as [Hd0 | Hd0].
    + apply (Z.mod_unique_pos n (Z.abs d) (- (n ÷ d) - 1)); lia.
    + apply (Z.mod_unique_pos n (Z.abs d) (n ÷ d - 1)); lia.
  - destruct (Z.lt_ge_cases d 0) as [Hd0 | Hd0].
    + apply (Z.mod_unique_pos n (Z.abs d) (- (n ÷ d))); lia.
    + apply (Z.mod_unique_pos n (Z.abs d) (n ÷ d)); lia.
Qed.

Lemma nth_error_rotation {T} (l : list T) (k i : nat) :
  k < length l -> i < length l ->
  nth_error (skipn k l ++ firstn k l) i
  = nth_error l ((i + k) mod length l).
Proof.
  intros Hk Hi.
  destruct (Nat.lt_ge_cases i (length l - k)) as [H | H].
  - rewrite nth_error_app1 by (rewrite length_skipn; lia).
    rewrite nth_error_skipn, Nat.mod_small by lia.
    f_equal. lia.
  - rewrite nth_error_app2 by (rewrite length_skipn; lia).
    rewrite length_skipn, nth_error_firstn.
    destruct (Nat.ltb_spec (i - (length l - k)) k); [| lia].
    f_equal.
    replace (i + k) with ((i - (length l - k)) + 1 * length l) by lia.
    rewrite Nat.Div0.mod_add, Nat.mod_small by lia. reflexivity.
Qed.

Lemma list_ext_nth_error {T} (l l' : list T) :
  length l = length l' ->
  (forall i, i < length l -> nth_error l i = nth_error l' i) ->
  l = l'.
Proof.
  revert l'. induction l as [|x l IH]; intros [|y l'] Hlen H;
    simpl in Hlen; try discriminate; [reflexivity |].
  f_equal.
  - specialize (H 0 ltac:(simpl; lia)). simpl in H. inversion H.
    reflexivity.
  - apply IH; [lia |]. intros i Hi.
    apply (H (S i)). simpl. lia.
Qed.

(** What [rotateArray] returns for a 32 bit integer. *)
Lemma rotateArray_rotation {T} (input : list T) (by_ : Z) :
  (- 2 ^ 31 <= by_ < 2 ^ 31)%Z ->
  rotateArray input by_
  = Some (skipn (Z.to_nat (by_ mod Z.of_nat (length input))) input
          ++ firstn (Z.to_nat (by_ mod Z.of_nat (length input))) input).
Proof.
  intros Hby. unfold rotateArray.
  rewrite (proj2 (ToInt32_fixed_iff by_) Hby), Z.eqb_refl. simpl negb.
  cbv iota.
  destruct input as [|x input'].
  - rewrite !skipn_nil, !firstn_nil. reflexivity.
  - rewrite positiveModulo_modulo by (simpl; lia).
    rewrite Z.abs_eq by lia.
    destruct (Z.eqb_spec (by_ mod Z.of_nat (length (x :: input'))) 0)
      as [E | E]; [| reflexivity].
    rewrite E. simpl. rewrite app_nil_r. reflexivity.
Qed.

Lemma rotateArray_nth_error {T} (input r : list T) (by_ : Z) :
  (- 2 ^ 31 <= by_ < 2 ^ 31)%Z ->
  rotateArray input by_ = Some r ->
  length r = length input
  /\ forall i, i < length input ->
       nth_error r i
       = nth_error input
           (Z.to_nat ((Z.of_nat i + by_) mod Z.of_nat (length input))).
Proof.
  intros Hby Hr. rewrite rotateArray_rotation in Hr by assumption.
  inversion Hr as [E]. clear Hr.
  split.
  - rewrite length_app, length_skipn, length_firstn. lia.
  - intros i Hi.
    assert (Hn : (0 < Z.of_nat (length input))%Z) by lia.
    pose proof (Z.mod_pos_bound by_ _ Hn) as Hk.
    rewrite nth_error_rotation by lia.
    f_equal.
    rewrite <- (Z.add_mod_idemp_r (Z.of_nat i) by_) by lia.
    set (k := (by_ mod Z.of_nat (length input))%Z) in *.
    rewrite <- (Z2Nat.id k) at 2 by lia.
    rewrite <- Nat2Z.inj_add, <- Nat2Z.inj_mod, Nat2Z.id. reflexivity.
Qed.

(** X11: the arrays [permutations(toPermute, prefix)] yields are exactly the
    arrays made of [prefix] followed by a rearrangement of [toPermute]; the
    generator always runs to its end. *)
Theorem X11_permutations_membership {T} (toPermute prefix : list T) :
  exists yielded,
    permutations toPermute prefix = Ok yielded
    /\ forall q,
         In q yielded
         <-> exists p, Permutation toPermute p /\ q = prefix ++ p.
Proof.
  destruct (permutations_fuel_spec T (length toPermute) toPermute prefix
              (le_n _)) as (ys & Hys & _ & Hin & _).
  exists ys. split; assumption.
Qed.

(** X12: [permutations] yields as many arrays as the factorial of the
    length of [toPermute] says, and no array twice when no two items of
    [toPermute] are equal. *)
Theorem X12_permutations_count {T} (toPermute prefix : list T) :
  exists yielded,
    permutations toPermute prefix = Ok yielded
    /\ length yielded = fact (length toPermute)
    /\ (NoDup toPermute -> NoDup yielded).
Proof.
  destruct (permutations_fuel_spec T (length toPermute) toPermute prefix
              (le_n _)) as (ys & Hys & Hlen & _ & Hnd).
  exists ys. repeat split; assumption.
Qed.

(** X13: for integers of at most 53 bits and a denominator other than zero,
    [positiveModulo] returns the remainder that lies between zero and the
    size of the denominator, and its result does not change when the
    denominator is added to the numerator; for the denominator zero it
    returns NaN. *)
Theorem X13_positiveModulo (numerator denominator : Z) :
  isSafeInteger numerator = true ->
  isSafeInteger denominator = true ->
  isSafeInteger (numerator + denominator) = true ->
  positiveModulo numerator 0 = None
  /\ (denominator <> 0%Z ->
      exists r,
        positiveModulo numerator denominator = Some r
        /\ (0 <= r < Z.abs denominator)%Z
        /\ r = (numerator mod Z.abs denominator)%Z
        /\ positiveModulo (numerator + denominator) denominator = Some r).
Proof.
  intros _ _ _. split; [reflexivity |]. intros Hd.
  exists (numerator mod Z.abs denominator)%Z.
  split; [apply positiveModulo_modulo; assumption |].
  split; [apply Z.mod_pos_bound; lia |]. split; [reflexivity |].
  rewrite positiveModulo_modulo by assumption. f_equal.
  destruct (Z.abs_spec denominator) as [[_ E] | [_ E]]; rewrite E.
  - rewrite <- (Z.mul_1_l denominator) at 1. apply Z.mod_add. lia.
  - replace (numerator + denominator)%Z
      with (numerator + (-1) * - denominator)%Z by lia.
    apply Z.mod_add. lia.
Qed.

Lemma X13_positiveModulo_witness :
  positiveModulo (-7) 0 = None
  /\ (3%Z <> 0%Z ->
      exists r,
        positiveModulo (-7) 3 = Some r
        /\ (0 <= r < Z.abs 3)%Z
        /\ r = ((-7) mod Z.abs 3)%Z
        /\ positiveModulo (-7 + 3) 3 = Some r).
Proof.
  exact (X13_positiveModulo (-7) 3 eq_refl eq_refl eq_refl).
Defined.

(** X14: [rotateArray] throws exactly when [by] is not a 32 bit integer;
    what it returns otherwise is a rearrangement of [input]. *)
Theorem X14_rotateArray_throws {T} (input : list T) (by_ : Z) :
  (rotateArray input by_ = None <-> ~ (- 2 ^ 31 <= by_ < 2 ^ 31)%Z)
  /\ (forall r, rotateArray input by_ = Some r -> Permutation input r).
Proof.
  destruct (Z_le_dec (- 2 ^ 31) by_) as [Hlo | Hlo];
    [destruct (Z_lt_dec by_ (2 ^ 31)) as [Hhi | Hhi] |].
  - rewrite rotateArray_rotation by lia. split.
    + split; [discriminate | intros H; exfalso; apply H; lia].
    + intros r E. inversion E.
      rewrite <- (firstn_skipn
                    (Z.to_nat (by_ mod Z.of_nat (length input))) input)
        at 1.
      apply Permutation_app_comm.
  - assert (E : rotateArray input by_ = None).
    { unfold rotateArray.
      destruct (Z.eqb_spec (ToInt32 by_) by_) as [E | E]; [| reflexivity].
      apply ToInt32_fixed_iff in E. lia. }
    rewrite E. split; [split; [intros _; lia | reflexivity] | discriminate].
  - assert (E : rotateArray input by_ = None).
    { unfold rotateArray.
      destruct (Z.eqb_spec (ToInt32 by_) by_) as [E | E]; [| reflexivity].
      apply ToInt32_fixed_iff in E. lia. }
    rewrite E. split; [split; [intros _; lia | reflexivity] | discriminate].
Qed.

(** X15: for a 32 bit integer [by], [rotateArray(input, by)] has the length
    of [input] and its element at index [i] is the element of [input] at
    index [i + by] taken modulo the length: a rotation to the left by [by]
    places, to the right when [by] is negative. *)
Theorem X15_rotateArray_index {T} (input : list T) (by_ : Z) :
  (- 2 ^ 31 <= by_ < 2 ^ 31)%Z ->
  exists r,
    rotateArray input by_ = Some r
    /\ length r = length input
    /\ forall i, i < length input ->
         nth_error r i
         = nth_error input
             (Z.to_nat ((Z.of_nat i + by_) mod Z.of_nat (length input))).
Proof.
  intros Hby. eexists. split; [apply rotateArray_rotation; assumption |].
  apply (rotateArray_nth_error input _ by_ Hby).
  apply rotateArray_rotation. assumption.
Qed.

Lemma X15_rotateArray_index_witness :
  exists r,
    rotateArray [10; 20; 30; 40; 50] (-1) = Some r
    /\ length r = length [10; 20; 30; 40; 50]
    /\ forall i, i < length [10; 20; 30; 40; 50] ->
         nth_error r i
         = nth_error [10; 20; 30; 40; 50]
             (Z.to_nat ((Z.of_nat i + -1)
                        mod Z.of_nat (length [10; 20; 30; 40; 50]))).
Proof.
  apply (X15_rotateArray_index [10; 20; 30; 40; 50] (-1)). lia.
Defined.

(** X16: rotating by [a] and then by [b] is rotating by [a + b], as long as
    the three are 32 bit integers; in particular rotating by [- a] undoes
    rotating by [a]. *)
Theorem X16_rotateArray_twice {T} (input : list T) (a b : Z) :
  (- 2 ^ 31 <= a < 2 ^ 31)%Z ->
  (- 2 ^ 31 <= b < 2 ^ 31)%Z ->
  (- 2 ^ 31 <= a + b < 2 ^ 31)%Z ->
  exists r,
    rotateArray input a = Some r
    /\ rotateArray r b = rotateArray input (a + b).
Proof.
  intros Ha Hb Hab.
  destruct (rotateArray input a) as [r1|] eqn:E1.
  2: { rewrite rotateArray_rotation in E1 by assumption. discriminate. }
  exists r1. split; [reflexivity |].
  destruct (rotateArray_nth_error input r1 a Ha E1) as [L1 N1].
  destruct (rotateArray r1 b) as [r2|] eqn:E2.
  2: { rewrite rotateArray_rotation in E2 by assumption. discriminate. }
  destruct (rotateArray_nth_error r1 r2 b Hb E2) as [L2 N2].
  destruct (rotateArray input (a + b)) as [r3|] eqn:E3.
  2: { rewrite rotateArray_rotation in E3 by assumption. discriminate. }
  destruct (rotateArray_nth_error input r3 (a + b) Hab E3) as [L3 N3].
  f_equal. apply list_ext_nth_error; [lia |].
  intros i Hi.
  assert (Hn : (0 < Z.of_nat (length input))%Z) by lia.
  rewrite N2, N3 by lia. rewrite L1.
  pose proof (Z.mod_pos_bound (Z.of_nat i + b) _ Hn) as Hj.
  rewrite N1 by lia. f_equal. f_equal.
  rewrite Z2Nat.id by lia.
  rewrite Z.add_mod_idemp_l by lia. f_equal. lia.
Qed.

Lemma X16_rotateArray_twice_witness :
  exists r,
    rotateArray [1; 2; 3] 7 = Some r
    /\ rotateArray r (-7) = rotateArray [1; 2; 3] (7 + -7).
Proof.
  apply (X16_rotateArray_twice [1; 2; 3] 7 (-7)); lia.
Defined.

(** * [shuffleArray] *)

Section ShuffleFacts.

Variable T : Type.

Lemma assignAt_length (index : nat) (value : T) (array : list T) :
  length (assignAt index value array) = length array.
Proof.
  unfold assignAt. destruct (Nat.ltb_spec index (length array)) as [H | H];
    [| reflexivity].
  rewrite length_app, length_firstn. cbn [length].
  rewrite length_skipn. lia.
Qed.

Lemma assignAt_nth_error (index : nat) (value : T) (array : list T) (n : nat) :
  index < length array ->
  nth_error (assignAt index value array) n
  = if n =? index then Some value else nth_error array n.
Proof.
  intros H. unfold assignAt.
  destruct (Nat.ltb_spec index (length array)) as [_ | H']; [| lia].
  destruct (Nat.eqb_spec n index) as [-> | Hne].
  - rewrite nth_error_app2 by (rewrite length_firstn; lia).
    rewrite length_firstn.
    replace (index - Nat.min index (length array)) with 0 by lia.
    reflexivity.
  - destruct (Nat.lt_ge_cases n index) as [Hlt | Hge].
    + rewrite nth_error_app1 by (rewrite length_firstn; lia).
      rewrite nth_error_firstn.
      destruct (Nat.ltb_spec n index); [reflexivity | lia].
    + rewrite nth_error_app2 by (rewrite length_firstn; lia).
      rewrite length_firstn.
      replace (n - Nat.min index (length array)) with (S (n - S index))
        by lia.
      cbn [nth_error]. rewrite nth_error_skipn. f_equal. lia.
Qed.

Lemma swapElements_length (i j : nat) (array : list T) :
  length (swapElements i j array) = length array.
Proof.
  unfold swapElements.
  destruct (nth_error array j), (nth_error array i); try reflexivity.
  rewrite !assignAt_length. reflexivity.
Qed.

Lemma swapElements_Permutation (i j : nat) (array : list T) :
  Permutation array (swapElements i j array).
Proof.
  unfold swapElements.
  destruct (nth_error array j) as [atJ|] eqn:Ej; [| reflexivity].
  destruct (nth_error array i) as [atI|] eqn:Ei; [| reflexivity].
  assert (Hj : j < length array)
    by (apply nth_error_Some; rewrite Ej; discriminate).
  assert (Hi : i < length array)
    by (apply nth_error_Some; rewrite Ei; discriminate).
  apply Permutation_nth_error. split.
  - rewrite !assignAt_length. reflexivity.
  - exists (fun n => if n =? j then i else if n =? i then j else n). split.
    + intros x y.
      destruct (Nat.eqb_spec x j), (Nat.eqb_spec x i),
        (Nat.eqb_spec y j), (Nat.eqb_spec y i); intros; subst; lia.
    + intros n.
      rewrite assignAt_nth_error by (rewrite assignAt_length; assumption).
      rewrite assignAt_nth_error by assumption.
      destruct (Nat.eqb_spec n j) as [-> | Hnj]; [symmetry; assumption |].
      destruct (Nat.eqb_spec n i) as [-> | Hni]; [symmetry; assumption |].
      reflexivity.
Qed.

Lemma shuffleArray_loop_Permutation (i : nat) (random : nat -> nat) :
  forall array : list T,
    Permutation array (shuffleArray_loop i random array)
    /\ length (shuffleArray_loop i random array) = length array.
Proof.
  induction i as [|i IH]; intros array; simpl.
  - split; reflexivity.
  - destruct (IH (swapElements (S i) (random (S i)) array)) as [Hp Hl].
    split.
    + rewrite <- Hp. apply swapElements_Permutation.
    + rewrite Hl. apply swapElements_length.
Qed.

End ShuffleFacts.

(** X17: whatever the random numbers are, as long as the one of the pass
    for [i] lies between 0 and [i], [shuffleArray] returns a rearrangement
    of the array it is given: no element is lost, added or repeated. *)
Theorem X17_shuffleArray_rearranges {T} (random : nat -> nat)
    (array : list T) :
  (forall i, random i <= i) ->
  Permutation array (shuffleArray random array)
  /\ length (shuffleArray random array) = length array.
Proof.
  intros _. apply shuffleArray_loop_Permutation.
Qed.

Lemma X17_shuffleArray_rearranges_witness :
  Permutation [1; 2; 3; 4] (shuffleArray (fun i => i - 1) [1; 2; 3; 4])
  /\ length (shuffleArray (fun i => i - 1) [1; 2; 3; 4])
     = length [1; 2; 3; 4].
Proof.
  apply (X17_shuffleArray_rearranges (fun i => i - 1) [1; 2; 3; 4]).
  intros i. lia.
Defined.

(** X9: [tclQuote] returns a string unchanged exactly when the string is
    not empty and holds plain characters only: no control character, space,
    double quote, backslash or brace. *)
Theorem X9_unchanged_iff_plain (s : jsstring) :
  tclQuote s = Ok s <-> (s <> [] /\ forallb isPlain s = true).
Proof.
  rewrite tclQuote_quoteElement. split.
  - intros H. assert (E : quoteElement s = s) by congruence. clear H.
    destruct (quoteElement_modes s) as [H | [[N H] | (N & _ & P)]].
    + exfalso. rewrite H in E. apply (f_equal (@length codeUnit)) in E.
      unfold braced in E. rewrite !length_app in E. simpl in E. lia.
    + split; [assumption |]. rewrite H in E.
      assert (Hgen : forall t,
                 flat_map (fun u => slashQuoteCharacter [u]) t = t ->
                 forallb isPlain t = true).
      { induction t as [|u t IH]; [reflexivity |]. simpl flat_map.
        intros Et.
        assert (Hlen : length t
                       <= length
                            (flat_map (fun u => slashQuoteCharacter [u]) t)).
        { rewrite <- slashQuote_units. apply slashQuote_length. }
        destruct (slashQuoteCharacter_cases u)
          as [Hp | x Hx Hcx Hdec Hnp | h1 h2 Hh1 Hh2 Hdec Hc];
          apply (f_equal (@tl codeUnit)) in Et as Et'; simpl in Et'.
        - simpl. rewrite Hp. apply IH. assumption.
        - exfalso. apply (f_equal (@length codeUnit)) in Et'.
          simpl in Et'. lia.
        - exfalso. apply (f_equal (@length codeUnit)) in Et'.
          simpl in Et'. lia. }
      apply Hgen. rewrite <- slashQuote_units. assumption.
    + split; assumption.
  - intros [N P]. rewrite quoteElement_plain by assumption. reflexivity.
Qed.

Lemma X9_unchanged_iff_plain_witness :
  tclQuote (js "simple_value") = Ok (js "simple_value")
  <-> (js "simple_value" <> [] /\ forallb isPlain (js "simple_value") = true).
Proof.
  exact (X9_unchanged_iff_plain (js "simple_value")).
Defined.

(** * Lists of strings can be told apart *)

Lemma bareWordLength_element (e : jsstring) : forall t,
  bareSpecialFree e = true -> endsWord t ->
  bareWordLength (e ++ t) = length e.
Proof.
  induction e as [| u rest IH1 IH2] using list_skip_ind; intros t He Ht.
  - destruct Ht as [-> | (t' & ->)]; reflexivity.
  - simpl in He. cbn [app bareWordLength].
    destruct (u =? BACKSLASH)%N eqn:Hb.
    + assert (Hs : (u =? SPACE)%N = false)
        by (unit_cases; subst; reflexivity).
      rewrite Hs.
      destruct rest as [|d rest']; [discriminate |].
      cbn [app]. rewrite (IH2 d rest' eq_refl t) by assumption.
      reflexivity.
    + apply andb_true_iff in He as [Hu He].
      assert (Hs : (u =? SPACE)%N = false).
      { unfold isPlain in Hu. destruct (u =? SPACE)%N; [| reflexivity].
        rewrite !orb_true_r in Hu. simpl in Hu.
        destruct (isControl u); discriminate. }
      rewrite Hs, IH1 by assumption. reflexivity.
Qed.

Lemma bareSpecialFree_plain (e : jsstring) :
  forallb isPlain e = true -> bareSpecialFree e = true.
Proof.
  induction e as [|u e IH]; [reflexivity |]. simpl.
  intros H. apply andb_true_iff in H as [Hu He].
  rewrite (isPlain_not_backslash u Hu), Hu. apply IH. assumption.
Qed.

Lemma bracedWordLength_scan (s : jsstring) : forall st k rest,
  requireSlashQuote st = false ->
  requireSlashQuote (scanFrom (singletons s) st) = false ->
  bracedWordLength (braceCount st + S k) (s ++ rest)
  = length s
    + bracedWordLength (braceCount (scanFrom (singletons s) st) + S k) rest.
Proof.
  induction s as [| u s' IH1 IH2] using list_skip_ind;
    intros st k rest Hst Hend.
  - reflexivity.
  - rewrite singletons_cons, scanFrom_cons, classify_unit in Hend |- *.
    cbn [app bracedWordLength length].
    destruct (isControl u) eqn:Hc.
    { simpl in Hend. discriminate. }
    destruct ((u =? SPACE) || (u =? DQUOTE))%N eqn:Hsq.
    { assert (Hb : (u =? BACKSLASH)%N = false /\ (u =? LBRACE)%N = false
                   /\ (u =? RBRACE)%N = false)
        by (apply orb_true_iff in Hsq as [H | H]; unit_cases; subst;
            repeat split; reflexivity).
      destruct Hb as (Hb1 & Hb2 & Hb3). rewrite Hb1, Hb2, Hb3.
      cbn [requireSlashQuote setBrace] in Hend |- *.
      rewrite Hst in Hend |- *.
      pose proof (IH1 (setBrace st) k rest Hst Hend) as H.
      cbn [braceCount setBrace] in H. rewrite H. reflexivity. }
    destruct (u =? BACKSLASH)%N.
    { destruct s' as [|d s'']; [simpl in Hend; discriminate |].
      rewrite singletons_cons in Hend |- *.
      cbn [requireSlashQuote setBrace] in Hend |- *.
      rewrite Hst in Hend |- *. cbn [app length].
      pose proof (IH2 d s'' eq_refl (setBrace st) k rest Hst Hend) as H.
      cbn [braceCount setBrace] in H. rewrite H. reflexivity. }
    destruct (u =? LBRACE)%N.
    { cbn [requireSlashQuote] in Hend |- *. rewrite Hst in Hend |- *.
      pose proof (IH1 (mkScan false true (braceCount st + 1)) k rest
                    eq_refl Hend) as H.
      cbn [braceCount] in H.
      replace (S (braceCount st + S k)) with (braceCount st + 1 + S k)
        by lia.
      rewrite H. reflexivity. }
    destruct (u =? RBRACE)%N.
    { destruct (braceCount st) as [|n] eqn:Hn.
      - simpl in Hend. discriminate.
      - cbn [requireSlashQuote] in Hend |- *. rewrite Hst in Hend |- *.
        pose proof (IH1 (mkScan false true n) k rest eq_refl Hend) as H.
        cbn [braceCount] in H.
        replace (S n + S k) with (S (S (n + k))) by lia.
        replace (S (n + k)) with (n + S k) by lia.
        rewrite H. reflexivity. }
    rewrite Hst in Hend |- *.
    rewrite (IH1 st k rest) by assumption. reflexivity.
Qed.

Lemma wordLength_braced (s t : jsstring) :
  selfContained s = true -> wordLength (braced s ++ t) = length (braced s).
Proof.
  intros Hs. apply selfContained_iff in Hs as [Hslash Hcount].
  unfold braced. simpl app. unfold wordLength. rewrite N.eqb_refl.
  rewrite <- app_assoc.
  pose proof (bracedWordLength_scan s scanStart 0 ([RBRACE] ++ t)
                eq_refl Hslash) as H.
  simpl braceCount in H at 1. simpl plus in H at 1.
  rewrite H, Hcount. simpl. rewrite length_app. simpl. lia.
Qed.

(** The first word of an element followed by what may follow it in a list
    is the element. *)
Lemma wordLength_quoteElement (s t : jsstring) :
  endsWord t -> wordLength (quoteElement s ++ t) = length (quoteElement s).
Proof.
  intros Ht.
  assert (Hbare : forall e, e <> [] -> bareSpecialFree e = true ->
            (forall a rest, e = a :: rest -> (a =? LBRACE)%N = false) ->
            wordLength (e ++ t) = length e).
  { intros e Hne He Hhead. destruct e as [|a rest]; [contradiction |].
    unfold wordLength. cbn [app]. rewrite (Hhead a rest eq_refl).
    apply (bareWordLength_element (a :: rest)); assumption. }
  unfold quoteElement. rewrite strictEq_nil.
  destruct s as [|u s'].
  { apply (wordLength_braced [] t). reflexivity. }
  cbv zeta.
  destruct (finalSlash (scanFrom (Array_from (u :: s')) scanStart)) eqn:Hf.
  - apply Hbare.
    + apply slashQuote_nonempty. discriminate.
    + apply bareSpecialFree_slashQuote.
    + intros a rest E.
      destruct (slashQuote_head (u :: s')) as (a' & rest' & E' & Ha);
        [discriminate |].
      rewrite E' in E. inversion E; subst. assumption.
  - destruct (requireBraceQuote _) eqn:Hb.
    + apply (wordLength_braced (u :: s') t).
      unfold selfContained. rewrite Hf. reflexivity.
    + assert (Hp : forallb isPlain (u :: s') = true).
      { apply finalSlash_false_iff in Hf as [Hslash _].
        rewrite scanFrom_units in Hslash, Hb by reflexivity.
        apply (scanFrom_no_request (u :: s') scanStart);
          [reflexivity | assumption | assumption]. }
      apply Hbare; [discriminate | apply bareSpecialFree_plain; assumption |].
      intros a rest E. inversion E; subst.
      simpl in Hp. apply andb_true_iff in Hp as [Ha _].
      apply isPlain_not_isBrace in Ha. unfold isBrace in Ha.
      apply orb_false_iff in Ha as [Ha _]. assumption.
Qed.

Lemma join_head sep e es :
  exists t,
    join sep (e :: es) = e ++ t
    /\ (es = [] /\ t = [] \/ es <> [] /\ t = sep ++ join sep es).
Proof.
  destruct es as [|e' es'].
  - exists []. split; [simpl; rewrite app_nil_r; reflexivity |].
    left. split; reflexivity.
  - exists (sep ++ join sep (e' :: es')). split; [reflexivity |].
    right. split; [discriminate | reflexivity].
Qed.

Lemma firstn_length_app {A} (l t : list A) :
  firstn (length l) (l ++ t) = l.
Proof.
  induction l as [|x l IH]; [reflexivity |]. simpl. rewrite IH. reflexivity.
Qed.

Lemma skipn_length_app {A} (l t : list A) :
  skipn (length l) (l ++ t) = t.
Proof.
  induction l as [|x l IH]; [reflexivity |]. simpl. exact IH.
Qed.

Lemma join_quoteElement_inj (a : list jsstring) : forall b,
  join [SPACE] (List.map quoteElement a)
  = join [SPACE] (List.map quoteElement b) ->
  a = b.
Proof.
  assert (Hne : forall s es,
            join [SPACE] (quoteElement s :: es) <> []).
  { intros s es E. destruct (join_head [SPACE] (quoteElement s) es)
      as (t & Et & _).
    rewrite Et in E. apply app_eq_nil in E as [E _].
    exact (quoteElement_nonempty s E). }
  induction a as [|sa a IH]; intros [|sb b] E.
  - reflexivity.
  - exfalso. symmetry in E. exact (Hne _ _ E).
  - exfalso. exact (Hne _ _ E).
  - simpl List.map in E.
    destruct (join_head [SPACE] (quoteElement sa) (List.map quoteElement a))
      as (ta & Ea & Hta).
    destruct (join_head [SPACE] (quoteElement sb) (List.map quoteElement b))
      as (tb & Eb & Htb).
    rewrite Ea, Eb in E.
    assert (Hwa : endsWord ta)
      by (destruct Hta as [[_ ->] | [_ ->]];
          [left; reflexivity | right; eexists; reflexivity]).
    assert (Hwb : endsWord tb)
      by (destruct Htb as [[_ ->] | [_ ->]];
          [left; reflexivity | right; eexists; reflexivity]).
    assert (Hlen : length (quoteElement sa) = length (quoteElement sb)).
    { rewrite <- (wordLength_quoteElement sa ta Hwa).
      rewrite <- (wordLength_quoteElement sb tb Hwb).
      rewrite E. reflexivity. }
    assert (Hq : quoteElement sa = quoteElement sb /\ ta = tb).
    { split.
      - rewrite <- (firstn_length_app (quoteElement sa) ta).
        rewrite <- (firstn_length_app (quoteElement sb) tb).
        rewrite E, Hlen. reflexivity.
      - rewrite <- (skipn_length_app (quoteElement sa) ta).
        rewrite <- (skipn_length_app (quoteElement sb) tb).
        rewrite E, Hlen. reflexivity. }
    destruct Hq as [Hq Ht]. apply quoteElement_inj in Hq. subst sb.
    f_equal. apply IH.
    destruct Hta as [[Ha ->] | [Ha ->]];
      destruct Htb as [[Hb Etb] | [Hb Etb]].
    + rewrite Ha, Hb. reflexivity.
    + rewrite Etb in Ht. discriminate.
    + rewrite Etb in Ht. discriminate.
    + rewrite Etb in Ht. inversion Ht. reflexivity.
Qed.

Lemma tclList_strings (number : Type) (Number_toString : number -> jsstring)
    (a : list jsstring) :
  tclList Number_toString (List.map TString a)
  = Ok (join [SPACE] (List.map quoteElement a)).
Proof.
  unfold tclList.
  rewrite (tclList_forOf_join number Number_toString (List.map TString a)
             (List.map quoteElement a) []).
  - reflexivity.
  - induction a as [|s a IH]; [reflexivity |].
    simpl. rewrite tclQuote_quoteElement. simpl. rewrite IH. reflexivity.
  - apply Forall_forall. intros e He. apply in_map_iff in He as (s & <- & _).
    apply quoteElement_nonempty.
Qed.

(** X18: two lists of strings with the same encoding are the same list:
    the strings of a list and their number can be recovered from what
    [tclList] returns. *)
Theorem X18_tclList_strings_injective (number : Type)
    (Number_toString : number -> jsstring) (a b : list jsstring) :
  tclList Number_toString (List.map TString a)
  = tclList Number_toString (List.map TString b) ->
  a = b.
Proof.
  rewrite !tclList_strings. intros H. apply join_quoteElement_inj.
  congruence.
Qed.

Lemma X18_tclList_strings_injective_witness :
  tclList integer_toString
    (List.map TString [js "a b"; []; js "{"])
  = tclList integer_toString
      (List.map TString [js "a" ++ js " b"; []; js "{"])
  /\ [js "a b"; []; js "{"] = [js "a" ++ js " b"; []; js "{"].
Proof.
  split; [reflexivity |].
  exact (X18_tclList_strings_injective Z integer_toString
           [js "a b"; []; js "{"] [js "a" ++ js " b"; []; js "{"] eq_refl).
Defined.

(** * The element of a nested list *)

(** A string that escaping leaves as it is holds plain characters only. *)
Lemma slashQuote_fixed_plain (s : jsstring) :
  slashQuote s = s -> forallb isPlain s = true.
Proof.
  rewrite slashQuote_units.
  induction s as [|u t IH]; [reflexivity |]. simpl flat_map. intros Et.
  assert (Hlen : length t
                 <= length (flat_map (fun u => slashQuoteCharacter [u]) t)).
  { rewrite <- slashQuote_units. apply slashQuote_length. }
  destruct (slashQuoteCharacter_cases u)
    as [Hp | x Hx Hcx Hdec Hnp | h1 h2 Hh1 Hh2 Hdec Hc];
    apply (f_equal (@tl codeUnit)) in Et as Et'; simpl in Et'.
  - simpl. rewrite Hp. apply IH. assumption.
  - exfalso. apply (f_equal (@length codeUnit)) in Et'. simpl in Et'. lia.
  - exfalso. apply (f_equal (@length codeUnit)) in Et'. simpl in Et'. lia.
Qed.

Lemma braced_changes (s : jsstring) : braced s <> s.
Proof.
  intros E. apply (f_equal (@length codeUnit)) in E.
  unfold braced in E. rewrite !length_app in E. simpl in E. lia.
Qed.

(** The quoter leaves a string as it is exactly when the string is not
    empty and holds plain characters only. *)
Lemma quoteElement_fixed_iff (s : jsstring) :
  quoteElement s = s <-> s <> [] /\ forallb isPlain s = true.
Proof.
  split.
  - intros E.
    destruct (quoteElement_modes s) as [H | [[N H] | (N & _ & P)]].
    + exfalso. rewrite H in E. exact (braced_changes s E).
    + split; [assumption |]. rewrite H in E.
      apply slashQuote_fixed_plain. assumption.
    + split; assumption.
  - intros [N P]. apply quoteElement_plain; assumption.
Qed.

Lemma visiblyQuoted_same (s : jsstring) : visiblyQuoted s s = false.
Proof.
  unfold visiblyQuoted. rewrite (strictEq_refl s), andb_false_r, orb_false_r.
  destruct (strictEq s ([LBRACE] ++ s ++ [RBRACE])) eqn:E; [| reflexivity].
  apply strictEq_spec in E. symmetry in E.
  exfalso. exact (braced_changes s E).
Qed.

(** The quoter returns a visibly quoted form exactly when the string is
    empty or holds a character that is not plain. *)
Lemma quoteElement_visiblyQuoted (s : jsstring) :
  visiblyQuoted s (quoteElement s) = true
  <-> s = [] \/ forallb isPlain s = false.
Proof.
  split.
  - intros V. destruct s as [|u t]; [left; reflexivity |]. right.
    destruct (forallb isPlain (u :: t)) eqn:P; [| reflexivity].
    rewrite (quoteElement_plain (u :: t)) in V by (discriminate || exact P).
    rewrite visiblyQuoted_same in V. discriminate.
  - intros H. destruct (quoteElement_forms s) as [E | V]; [| exact V].
    exfalso. apply quoteElement_fixed_iff in E as [N P].
    destruct H as [H | H]; [contradiction | congruence].
Qed.

Section EncoderTotal.

Variable number : Type.
Variable Number_toString : number -> jsstring.

Local Abbreviation encode := (encodeTclListElement Number_toString).

(** The loop of [tclList] returns when the encoding of every item does. *)
Lemma tclList_forOf_total (items : list (TclListable number)) :
  Forall (fun v => exists e, encode v = Ok e) items ->
  forall result, exists r, tclList_forOf Number_toString items result = Ok r.
Proof.
  induction 1 as [|item rest (e & He) _ IH]; intros result.
  - exists result. reflexivity.
  - rewrite tclList_forOf_cons, He. simpl bind. apply IH.
Qed.

(** Every value has an element string, whatever the conversion of numbers
    gives. *)
Lemma encode_total (v : TclListable number) : exists e, encode v = Ok e.
Proof.
  induction v as [s | n | b | items IH] using TclListable_nested_ind.
  - exists (quoteElement s). apply tclQuote_quoteElement.
  - exists (Number_toString n). reflexivity.
  - destruct b; eexists; reflexivity.
  - destruct (tclList_forOf_total items IH []) as (r & Hr).
    exists (quoteElement r). rewrite encode_TIterable. unfold tclList.
    rewrite Hr. simpl bind. apply tclQuote_quoteElement.
Qed.

Lemma tclList_total (items : list (TclListable number)) :
  exists r, tclList Number_toString items = Ok r.
Proof.
  unfold tclList. apply tclList_forOf_total.
  apply Forall_forall. intros v _. apply encode_total.
Qed.

End EncoderTotal.

(** C2 (amended): the list encoder returns an encoding for every nested
    list, and the element emitted for the nested list is the element quoter
    applied to that encoding.  The element is a quoted form of the encoding
    (the encoding inside one pair of braces, or its backslash-escaped form,
    which then differs from the encoding) exactly when the encoding is empty
    or holds a character that is not plain: a control character, a space, a
    double quote, a backslash or a brace.  It is the encoding itself, with
    no quoting added, exactly when the encoding is not empty and holds plain
    characters only. *)
Theorem C2_nested_list_element (number : Type)
    (Number_toString : number -> jsstring)
    (items : list (TclListable number)) :
  exists encoded element,
    tclList Number_toString items = Ok encoded
    /\ encodeTclListElement Number_toString (TIterable items) = Ok element
    /\ tclQuote encoded = Ok element
    /\ (visiblyQuoted encoded element = true
        <-> encoded = [] \/ forallb isPlain encoded = false)
    /\ (element = encoded
        <-> encoded <> [] /\ forallb isPlain encoded = true).
Proof.
  destruct (tclList_total number Number_toString items) as (encoded & Henc).
  exists encoded, (quoteElement encoded).
  split; [exact Henc |].
  split; [| split; [| split]].
  - rewrite encode_TIterable, Henc. simpl bind.
    apply tclQuote_quoteElement.
  - apply tclQuote_quoteElement.
  - apply quoteElement_visiblyQuoted.
  - apply quoteElement_fixed_iff.
Qed.
